(** * Pointer input and element interaction of rod, embedded in Rocq

    Two source files are modelled:
    - [mouse.go]: the [Mouse] type with [MoveE], [DownE], [UpE], [ClickE];
    - the element file: [Interactable], [WaitStable], [Remove], [Release],
      [Frame] and [ensureParentPage] of [Element].

    The remote browser is not part of the program.  Every call that leaves
    the process is answered by an oracle that sees the whole history of
    requests made so far, and every request is appended to that history. *)

From Stdlib Require Import ZArith List String Bool Lia Arith.
Import ListNotations.

Local Open Scope Z_scope.

(** ** Go's [int64]: integers with wrap-around *)

Module Int64.

Definition min_int : Z := - 2 ^ 63.
Definition max_int : Z := 2 ^ 63 - 1.

Definition in_range (z : Z) : Prop := min_int <= z <= max_int.

(** The value a 64-bit two's complement register holds for [z]. *)
Definition wrap (z : Z) : Z := (z + 2 ^ 63) mod 2 ^ 64 - 2 ^ 63.

Definition add (a b : Z) : Z := wrap (a + b).
Definition sub (a b : Z) : Z := wrap (a - b).

(** Go's [/] on integers truncates toward zero. *)
Definition quo (a b : Z) : Z := wrap (Z.quot a b).

End Int64.

(** ** mouse.go *)

Module Mouse.

(** [cdp.Object] is a JSON object; the values the mouse code stores in it
    are strings and integers. *)
Inductive Value : Type :=
| VString (s : string)
| VInt (z : Z).

Definition Object : Type := list (string * Value).

(** One protocol exchange: the method name and its parameters. *)
Definition Request : Type := (string * Object)%type.
Definition Trace : Type := list Request.

Definition defaultMouseButton : string := "left".

(** The part of [Page] the mouse reads: [page.Keyboard.modifiers]. *)
Record Page : Type := mkPage { Keyboard_modifiers : Z }.

(** [Mouse]; the mutex is not modelled, calls are sequential. *)
Record Mouse : Type := mkMouse {
  page : Page;
  x : Z;
  y : Z;
  buttons : list string
}.

Definition set_xy (m : Mouse) (toX toY : Z) : Mouse :=
  {| page := page m; x := toX; y := toY; buttons := buttons m |}.

Definition set_buttons (m : Mouse) (toButtons : list string) : Mouse :=
  {| page := page m; x := x m; y := y m; buttons := toButtons |}.

Section Operations.

Variable error : Type.

(** [m.page.Call(method, params)]: the answer of the browser, which may
    depend on everything sent before.  The mouse code drops the result
    value and keeps the error only. *)
Variable Call : Trace -> string -> Object -> option error.

(** [input.EncodeMouseButton] lives in another package. *)
Variable EncodeMouseButton : list string -> string * Z.

(** What one call returns: the error ([None] is Go's [nil]), the mouse
    and the history of requests afterwards. *)
Definition Outcome : Type := (option error * Mouse * Trace)%type.

Definition mouseMoved (m : Mouse) (toX toY : Z) (button : string)
    (btns : Z) : Object :=
  [ ("type", VString "mouseMoved");
    ("x", VInt toX);
    ("y", VInt toY);
    ("button", VString button);
    ("buttons", VInt btns);
    ("modifiers", VInt (Keyboard_modifiers (page m))) ]%string.

Definition mousePressed (m : Mouse) (button : string) (btns clicks : Z)
    : Object :=
  [ ("type", VString "mousePressed");
    ("button", VString button);
    ("buttons", VInt btns);
    ("clickCount", VInt clicks);
    ("modifiers", VInt (Keyboard_modifiers (page m)));
    ("x", VInt (x m));
    ("y", VInt (y m)) ]%string.

Definition mouseReleased (m : Mouse) (button : string) (btns clicks : Z)
    : Object :=
  [ ("type", VString "mouseReleased");
    ("button", VString button);
    ("buttons", VInt btns);
    ("clickCount", VInt clicks);
    ("x", VInt (x m));
    ("y", VInt (y m)) ]%string.

Definition dispatch : string := "Input.dispatchMouseEvent".

(** The body of the [for] loop of [MoveE], [n] iterations left. *)
Fixpoint move_loop (n : nat) (stepX stepY : Z) (button : string)
    (btns : Z) (m : Mouse) (tr : Trace) : Outcome :=
  match n with
  | O => (None, m, tr)
  | S n' =>
      let toX := Int64.add (x m) stepX in
      let toY := Int64.add (y m) stepY in
      let params := mouseMoved m toX toY button btns in
      match Call tr dispatch params with
      | Some err => (Some err, m, tr ++ [(dispatch, params)])
      | None =>
          move_loop n' stepX stepY button btns (set_xy m toX toY)
            (tr ++ [(dispatch, params)])
      end
  end.

Definition MoveE (m : Mouse) (x' y' : Z) (steps : Z) (tr : Trace)
    : Outcome :=
  let steps := if steps <? 1 then 1 else steps in
  let stepX := Int64.quo (Int64.sub x' (x m)) steps in
  let stepY := Int64.quo (Int64.sub y' (y m)) steps in
  let '(button, btns) := EncodeMouseButton (buttons m) in
  move_loop (Z.to_nat steps) stepX stepY button btns m tr.

Definition DownE (m : Mouse) (button : string) (clicks : Z) (tr : Trace)
    : Outcome :=
  let toButtons := buttons m ++ [button] in
  let '(_, btns) := EncodeMouseButton toButtons in
  let params := mousePressed m button btns clicks in
  match Call tr dispatch params with
  | Some err => (Some err, m, tr ++ [(dispatch, params)])
  | None => (None, set_buttons m toButtons, tr ++ [(dispatch, params)])
  end.

(** The loop of [UpE] that copies every button different from [button]. *)
Fixpoint released (button : string) (bs : list string) : list string :=
  match bs with
  | [] => []
  | btn :: bs' =>
      if String.eqb btn button then released button bs'
      else btn :: released button bs'
  end.

Definition UpE (m : Mouse) (button : string) (clicks : Z) (tr : Trace)
    : Outcome :=
  let toButtons := released button (buttons m) in
  let '(_, btns) := EncodeMouseButton toButtons in
  let params := mouseReleased m button btns clicks in
  match Call tr dispatch params with
  | Some err => (Some err, m, tr ++ [(dispatch, params)])
  | None => (None, set_buttons m toButtons, tr ++ [(dispatch, params)])
  end.

Definition ClickE (m : Mouse) (button : string) (tr : Trace) : Outcome :=
  let button :=
    if String.eqb button EmptyString then defaultMouseButton else button in
  match DownE m button 1 tr with
  | (Some err, m1, tr1) => (Some err, m1, tr1)
  | (None, m1, tr1) => UpE m1 button 1 tr1
  end.

(** [Down] and [Up] call [DownE] and [UpE] with one click and panic on
    an error; the panic is the [Some] case of the outcome. *)
Definition Down (m : Mouse) (button : string) (tr : Trace) : Outcome :=
  DownE m button 1 tr.

Definition Up (m : Mouse) (button : string) (tr : Trace) : Outcome :=
  UpE m button 1 tr.

End Operations.

End Mouse.

(** [Move] and [Click] of [mouse.go]: like [Down] and [Up] they call the
    [E] variant and panic on an error, which is the [Some] case here. *)

Module MouseShortcuts.
Import Mouse.

Section Shortcuts.

Variable error : Type.
Variable Call : Trace -> string -> Object -> option error.
Variable EncodeMouseButton : list string -> string * Z.

Definition Move (m : Mouse) (x' y' : Z) (tr : Trace) : Outcome error :=
  MoveE error Call EncodeMouseButton m x' y' 0 tr.

Definition Click (m : Mouse) (button : string) (tr : Trace) : Outcome error :=
  ClickE error Call EncodeMouseButton m button tr.

End Shortcuts.

End MouseShortcuts.


(** ** The element file *)

Module proto.

Definition RuntimeRemoteObjectID : Type := string.
Definition DOMNodeID : Type := Z.
Definition PageFrameID : Type := string.

(** [proto.DOMNode]: the one field [Element.Frame] reads. *)
Record DOMNode : Type := mkDOMNode { FrameID : PageFrameID }.

End proto.

Module Element.

(** A [context.Context] is known by its identity only. *)
Definition Context : Type := nat.

(** [Page] and [Element] point at each other: an element has its page, and
    the page of an iframe has the iframe element ([nil] for a top page). *)
Inductive Page : Type := mkPage {
  FrameID : proto.PageFrameID;
  SessionID : string;
  element : option Element;
  jsHelperObjectID : string;
  windowObjectID : string }
with Element : Type := mkElement {
  ctx : Context;
  page : Page;
  ObjectID : proto.RuntimeRemoteObjectID }.

Inductive ErrCode : Type :=
| ErrNotInteractable.

(** Go [error] values: the sentinel [io.EOF], the errors [newErr] builds,
    and every other error (protocol failures, context errors). *)
Inductive error : Type :=
| io_EOF
| Error_ (Code : ErrCode) (Details : Element) (Msg : string)
| Failure (msg : string).

Definition newErr (code : ErrCode) (details : Element) (msg : string)
    : error :=
  Error_ code details msg.

Definition is_EOF (e : error) : bool :=
  match e with io_EOF => true | _ => false end.

(** A Go pair [(value, err)] whose value is meaningful only when [err] is
    [nil]. *)
Inductive Result (A : Type) : Type :=
| Ok (a : A)
| Fail (err : error).
Arguments Ok {A} a.
Arguments Fail {A} err.

(** [EvalOptions], as far as the element code fills it. *)
Record EvalOptions : Type := mkEvalOptions {
  JS : string;
  JSArgs : list string;
  ThisID : proto.RuntimeRemoteObjectID;
  byUser : bool }.

Definition NewEvalOptions (js : string) (args : list string) : EvalOptions :=
  {| JS := js; JSArgs := args; ThisID := EmptyString; byUser := false |}.

Definition This (opts : EvalOptions) (id : proto.RuntimeRemoteObjectID)
    : EvalOptions :=
  {| JS := JS opts; JSArgs := JSArgs opts; ThisID := id;
     byUser := byUser opts |}.

(** Everything that leaves the element code, in the order it happens:
    protocol calls, calls into [Page], and the runtime events of
    [WaitStable] (ticker, [select], sleeper). *)
Inductive Event : Type :=
| DOMGetContentQuads (caller : Element)
| DOMDescribeNode (caller : Element) (depth : Z) (pierce : bool)
| PageEval (p : Page) (js : string)
| PageEvalWithOptions (p : Page) (c : Context) (opts : EvalOptions)
| PageElementFromPoint (p : Page) (x y : Z)
| PageHasElement (p : Page) (objID : proto.RuntimeRemoteObjectID)
| PageElements (p : Page) (selector : string)
| PageResolveNode (p : Page) (nodeID : proto.DOMNodeID)
| PageRelease (p : Page) (c : Context) (objID : proto.RuntimeRemoteObjectID)
| Sleep (c : Context)
| NewTicker (d : Z)
| Select (c : Context)
| TickerStop.

Definition Trace : Type := list Event.

(** What the [select] of [WaitStable] receives: a tick, or the closing of
    [ctx.Done()] together with the value of [ctx.Err()]. *)
Inductive Selected : Type :=
| Tick
| Done (err : error).

(** Helpers of other packages ([proto], [gjson], [reflect], [js], the page
    file), left open. *)
Record Lib : Type := mkLib {
  float64 : Type;
  CenterX : list float64 -> float64;
  CenterY : list float64 -> float64;
  int64_of : float64 -> Z;
  DeepEqual : list (list float64) -> list (list float64) -> bool;
  JSON : Type;
  Get : JSON -> string -> JSON;
  Int : JSON -> Z;
  Bool : JSON -> bool;
  Root : Page -> Page;
  js_Visible : string;
  js_ContainsElement : string;
  jsHelper : string -> list string -> EvalOptions }.

(** [proto.DOMQuad] is a slice of [float64]. *)
Definition DOMQuad (L : Lib) : Type := list (float64 L).

(** The browser and the Go runtime: each answer may depend on the whole
    history. *)
Record Remote (L : Lib) : Type := mkRemote {
  getContentQuads : Trace -> Element -> Result (list (DOMQuad L));
  describeNode : Trace -> Element -> Z -> bool -> Result proto.DOMNode;
  pageEval : Trace -> Page -> string -> Result (JSON L);
  pageEvalWithOptions :
    Trace -> Page -> Context -> EvalOptions -> Result (JSON L);
  pageElementFromPoint : Trace -> Page -> Z -> Z -> Result Element;
  pageHasElement :
    Trace -> Page -> proto.RuntimeRemoteObjectID -> Result bool;
  pageElements : Trace -> Page -> string -> Result (list Element);
  pageResolveNode :
    Trace -> Page -> proto.DOMNodeID -> Result proto.RuntimeRemoteObjectID;
  pageRelease :
    Trace -> Page -> Context -> proto.RuntimeRemoteObjectID -> option error;
  sleeper : Trace -> Context -> option error;
  selected : Trace -> Context -> Selected }.

Arguments getContentQuads {L}.
Arguments describeNode {L}.
Arguments pageEval {L}.
Arguments pageEvalWithOptions {L}.
Arguments pageElementFromPoint {L}.
Arguments pageHasElement {L}.
Arguments pageElements {L}.
Arguments pageResolveNode {L}.
Arguments pageRelease {L}.
Arguments sleeper {L}.
Arguments selected {L}.

(** How [WaitStable] can end: it returns, or [time.NewTicker] panics because
    the interval is not positive. *)
Inductive Completion : Type :=
| Returned (err : option error)
| Panicked.

Section Methods.

Context {L : Lib} (R : Remote L).

Definition Shape (el : Element) (tr : Trace)
    : Result (list (DOMQuad L)) * Trace :=
  (getContentQuads R tr el, tr ++ [DOMGetContentQuads el]).

Definition Describe (el : Element) (depth : Z) (pierce : bool) (tr : Trace)
    : Result proto.DOMNode * Trace :=
  (describeNode R tr el depth pierce, tr ++ [DOMDescribeNode el depth pierce]).

Definition EvalWithOptions (el : Element) (opts : EvalOptions) (tr : Trace)
    : Result (JSON L) * Trace :=
  let opts := This opts (ObjectID el) in
  (pageEvalWithOptions R tr (page el) (ctx el) opts,
   tr ++ [PageEvalWithOptions (page el) (ctx el) opts]).

Definition Eval (el : Element) (js : string) (params : list string)
    (tr : Trace) : Result (JSON L) * Trace :=
  EvalWithOptions el (NewEvalOptions js params) tr.

Definition ContainsElement (el target : Element) (tr : Trace)
    : Result bool * Trace :=
  match
    EvalWithOptions el (jsHelper L (js_ContainsElement L) [ObjectID target]) tr
  with
  | (Fail err, tr1) => (Fail err, tr1)
  | (Ok res, tr1) => (Ok (Bool L res), tr1)
  end.

(** [Interactable] has named results: [shape] is returned next to [err] on
    every path after [Shape] succeeded. *)
Definition Interactable (el : Element) (tr : Trace)
    : (list (DOMQuad L) * option error) * Trace :=
  match Shape el tr with
  | (Fail err, tr1) => (([], Some err), tr1)
  | (Ok shape, tr1) =>
      match shape with
      | [] =>
          ((shape,
            Some (newErr ErrNotInteractable el "element has no visible shape")),
           tr1)
      | shape0 :: _ =>
          let js := "{ x: window.scrollX, y: window.scrollY }"%string in
          let root := Root L (page el) in
          match pageEval R tr1 root js with
          | Fail err => ((shape, Some err), tr1 ++ [PageEval root js])
          | Ok scroll =>
              let tr2 := tr1 ++ [PageEval root js] in
              let px :=
                Int64.add (int64_of L (CenterX L shape0))
                          (Int L (Get L scroll "x")) in
              let py :=
                Int64.add (int64_of L (CenterY L shape0))
                          (Int L (Get L scroll "y")) in
              match pageElementFromPoint R tr2 (page el) px py with
              | Fail err =>
                  ((shape, Some err),
                   tr2 ++ [PageElementFromPoint (page el) px py])
              | Ok elAtPoint =>
                  let tr3 := tr2 ++ [PageElementFromPoint (page el) px py] in
                  match ContainsElement el elAtPoint tr3 with
                  | (Fail err, tr4) => ((shape, Some err), tr4)
                  | (Ok yes, tr4) =>
                      if yes then ((shape, None), tr4)
                      else
                        ((shape,
                          Some (newErr ErrNotInteractable elAtPoint
                                  "another element covers current one")),
                         tr4)
                  end
              end
          end
      end
  end.

(** [Frame]: a copy of the element's page for the iframe's document. *)
Definition Frame (el : Element) (tr : Trace) : Result Page * Trace :=
  match Describe el 1 false tr with
  | (Fail err, tr1) => (Fail err, tr1)
  | (Ok node, tr1) =>
      (Ok {| FrameID := proto.FrameID node;
             SessionID := SessionID (page el);
             element := Some el;
             jsHelperObjectID := EmptyString;
             windowObjectID := EmptyString |},
       tr1)
  end.

Definition Release (el : Element) (tr : Trace) : option error * Trace :=
  (pageRelease R tr (page el) (ctx el) (ObjectID el),
   tr ++ [PageRelease (page el) (ctx el) (ObjectID el)]).

Definition Remove (el : Element) (tr : Trace) : option error * Trace :=
  match Eval el "this.remove()" [] tr with
  | (Fail err, tr1) => (Some err, tr1)
  | (Ok _, tr1) => Release el tr1
  end.

(** Modelled from the spec: [utils.Retry], which is not among the sources.
    It calls [fn] until [fn] asks to stop, sleeping with the handle's
    sleeper between two calls; the sleeper's error (the scope was canceled
    or expired) ends the wait.  [None] means the fuel ran out. *)
Fixpoint Retry (fuel : nat) (c : Context)
    (fn : Trace -> (bool * option error) * Trace) (tr : Trace)
    : option (option error * Trace) :=
  match fuel with
  | O => None
  | S fuel' =>
      match fn tr with
      | ((true, err), tr1) => Some (err, tr1)
      | ((false, _), tr1) =>
          match sleeper R tr1 c with
          | Some err => Some (Some err, tr1 ++ [Sleep c])
          | None => Retry fuel' c fn (tr1 ++ [Sleep c])
          end
      end
  end.

Definition Wait (fuel : nat) (el : Element) (js : string)
    (params : list string) (tr : Trace) : option (option error * Trace) :=
  Retry fuel (ctx el)
    (fun tr =>
       match Eval el js params tr with
       | (Fail err, tr1) => ((true, Some err), tr1)
       | (Ok res, tr1) =>
           if Bool L res then ((true, None), tr1) else ((false, None), tr1)
       end)
    tr.

Definition WaitVisible (fuel : nat) (el : Element) (tr : Trace)
    : option (option error * Trace) :=
  let opts := jsHelper L (js_Visible L) [] in
  Wait fuel el (JS opts) (JSArgs opts) tr.

(** The [for] loop of [WaitStable]; [shape] is the previous sample. *)
Fixpoint stable_loop (fuel : nat) (el : Element) (shape : list (DOMQuad L))
    (tr : Trace) : option (option error * Trace) :=
  match fuel with
  | O => None
  | S fuel' =>
      match selected R tr (ctx el) with
      | Done err => Some (Some err, tr ++ [Select (ctx el)])
      | Tick =>
          match Shape el (tr ++ [Select (ctx el)]) with
          | (Fail err, tr1) => Some (Some err, tr1)
          | (Ok current, tr1) =>
              if DeepEqual L shape current then Some (None, tr1)
              else stable_loop fuel' el current tr1
          end
      end
  end.

Definition WaitStable (fuel : nat) (el : Element) (interval : Z) (tr : Trace)
    : option (Completion * Trace) :=
  match WaitVisible fuel el tr with
  | None => None
  | Some (Some err, tr1) => Some (Returned (Some err), tr1)
  | Some (None, tr1) =>
      match Shape el tr1 with
      | (Fail err, tr2) => Some (Returned (Some err), tr2)
      | (Ok shape, tr2) =>
          if interval <=? 0 then Some (Panicked, tr2 ++ [NewTicker interval])
          else
            match stable_loop fuel el shape (tr2 ++ [NewTicker interval]) with
            | None => None
            | Some (err, tr3) => Some (Returned err, tr3 ++ [TickerStop])
            end
      end
  end.

(** What [walk] hands back: its error, the handle (the closure assigns
    [el.page] and [el.ObjectID]) and the history. *)
Definition Walked : Type := (option error * Element * Trace)%type.

Definition rebind (el : Element) (p : Page)
    (objID : proto.RuntimeRemoteObjectID) : Element :=
  {| ctx := ctx el; page := p; ObjectID := objID |}.

(** The [for ... range list] loop inside [walk]; [walk] stands for the
    recursive call of the closure. *)
Fixpoint range (walk : Page -> Element -> Trace -> option Walked)
    (nodeID : proto.DOMNodeID) (l : list Element) (el : Element) (tr : Trace)
    : option Walked :=
  match l with
  | [] => Some (None, el, tr)
  | f :: rest =>
      match Frame f tr with
      | (Fail err, tr1) => Some (Some err, el, tr1)
      | (Ok p, tr1) =>
          match pageResolveNode R tr1 p nodeID with
          | Fail err => Some (Some err, el, tr1 ++ [PageResolveNode p nodeID])
          | Ok objID =>
              let tr2 := tr1 ++ [PageResolveNode p nodeID] in
              if negb (String.eqb objID EmptyString) then
                Some (Some io_EOF, rebind el p objID, tr2)
              else
                match walk p el tr2 with
                | None => None
                | Some (Some err, el', tr3) => Some (Some err, el', tr3)
                | Some (None, el', tr3) => range walk nodeID rest el' tr3
                end
          end
      end
  end.

(** The closure [walk] of [ensureParentPage].  The recursion follows the
    answers of the browser, so it carries fuel; [None] means it ran out. *)
Fixpoint walk (fuel : nat) (nodeID : proto.DOMNodeID) (pg : Page)
    (el : Element) (tr : Trace) : option Walked :=
  match fuel with
  | O => None
  | S fuel' =>
      match pageElements R tr pg "iframe" with
      | Fail err => Some (Some err, el, tr ++ [PageElements pg "iframe"])
      | Ok iframes =>
          range (walk fuel' nodeID) nodeID iframes el
            (tr ++ [PageElements pg "iframe"])
      end
  end.

Definition ensureParentPage (fuel : nat) (el : Element)
    (nodeID : proto.DOMNodeID) (objID : proto.RuntimeRemoteObjectID)
    (tr : Trace) : option Walked :=
  match pageHasElement R tr (page el) objID with
  | Fail err => Some (Some err, el, tr ++ [PageHasElement (page el) objID])
  | Ok true => Some (None, el, tr ++ [PageHasElement (page el) objID])
  | Ok false =>
      match
        walk fuel nodeID (page el) el (tr ++ [PageHasElement (page el) objID])
      with
      | None => None
      | Some (Some err, el', tr1) =>
          if is_EOF err then Some (None, el', tr1)
          else Some (Some err, el', tr1)
      | Some (None, el', tr1) => Some (None, el', tr1)
      end
  end.

End Methods.

End Element.

(** * Models for the statements

    ** Runs of the mouse *)

Module MouseModel.
Import Int64 Mouse.

(** A browser that accepts every event, and the button encoding of
    [lib/input] reduced to what the examples need. *)
Definition accept (error : Type) : Trace -> string -> Object -> option error :=
  fun _ _ _ => None.

Definition encode_none : list string -> string * Z :=
  fun _ => ("none"%string, 0).

(** A browser that accepts the first [k] events and rejects the others. *)
Definition reject_after (k : nat) : Trace -> string -> Object -> option string :=
  fun tr _ _ => if (List.length tr <? k)%nat then None else Some "closed"%string.

Definition origin : Mouse :=
  {| page := {| Keyboard_modifiers := 0 |}; x := 0; y := 0; buttons := [] |}.

Section Moves.

Variable error : Type.
Variable Call : Trace -> string -> Object -> option error.

(** One committed step of [MoveE]. *)
Definition step (sx sy : Z) (m : Mouse) : Mouse :=
  set_xy m (add (x m) sx) (add (y m) sy).

(** The mouse after [k] committed steps. *)
Fixpoint at_step (sx sy : Z) (k : nat) (m : Mouse) : Mouse :=
  match k with
  | O => m
  | S k' => at_step sx sy k' (step sx sy m)
  end.

(** The event that moves the mouse from [m] by one stride. *)
Definition move_request (sx sy : Z) (button : string) (btns : Z) (m : Mouse)
    : Request :=
  (dispatch, mouseMoved m (add (x m) sx) (add (y m) sy) button btns).

(** The first [k] events of a move that starts at [m]. *)
Fixpoint move_requests (sx sy : Z) (button : string) (btns : Z) (k : nat)
    (m : Mouse) : Trace :=
  match k with
  | O => []
  | S k' =>
      move_request sx sy button btns m
        :: move_requests sx sy button btns k' (step sx sy m)
  end.

(** The answer of the browser to event number [j + 1] of a move. *)
Definition answer (sx sy : Z) (button : string) (btns : Z) (m : Mouse)
    (tr : Trace) (j : nat) : option error :=
  Call (tr ++ move_requests sx sy button btns j m) dispatch
    (snd (move_request sx sy button btns (at_step sx sy j m))).

End Moves.

End MouseModel.

(** ** Browsers and frame trees for the element code *)

Module ElementModel.
Import Int64 Element.

Local Open Scope string_scope.
Local Open Scope list_scope.

(** *** A small library and browsers to run the element code on *)

Inductive json0 : Type :=
| JNull
| JBool (b : bool)
| JPoint (px py : Z).

Definition get0 (v : json0) (key : string) : json0 :=
  match v with
  | JPoint px py =>
      if String.eqb key "x" then JPoint px 0
      else if String.eqb key "y" then JPoint py 0
      else JNull
  | _ => JNull
  end.

Definition int0 (v : json0) : Z :=
  match v with JPoint px _ => px | _ => 0 end.

Definition bool0 (v : json0) : bool :=
  match v with JBool b => b | _ => false end.

Fixpoint eqb_list {A : Type} (eqb : A -> A -> bool) (l1 l2 : list A) : bool :=
  match l1, l2 with
  | [], [] => true
  | a :: l1', b :: l2' => eqb a b && eqb_list eqb l1' l2'
  | _, _ => false
  end.

Fixpoint root0 (p : Page) : Page :=
  match p with
  | mkPage _ _ (Some (mkElement _ p' _)) _ _ => root0 p'
  | _ => p
  end.

(** Quads are [x1; y1; x2; y2; x3; y3; x4; y4]; numbers are integers. *)
Definition lib0 : Lib :=
  {| float64 := Z;
     CenterX := fun q => (nth 0 q 0 + nth 2 q 0 + nth 4 q 0 + nth 6 q 0) / 4;
     CenterY := fun q => (nth 1 q 0 + nth 3 q 0 + nth 5 q 0 + nth 7 q 0) / 4;
     int64_of := fun z => z;
     DeepEqual := eqb_list (eqb_list Z.eqb);
     JSON := json0;
     Get := get0;
     Int := int0;
     Bool := bool0;
     Root := root0;
     js_Visible := "visible";
     js_ContainsElement := "containsElement";
     jsHelper := fun name args =>
       {| JS := name; JSArgs := args; ThisID := EmptyString;
          byUser := false |} |}.

Definition main_page : Page :=
  {| FrameID := "main"; SessionID := "s1"; element := None;
     jsHelperObjectID := "helper"; windowObjectID := "window" |}.

Definition button_el : Element :=
  {| ctx := O; page := main_page; ObjectID := "button" |}.

Definition modal_el : Element :=
  {| ctx := O; page := main_page; ObjectID := "modal" |}.

Definition square : DOMQuad lib0 := [0; 0; 10; 0; 10; 20; 0; 20].

(** A page scrolled by (3, 40) where [button_el] has the given shape, the
    element at any point is [hit], in-page evaluation answers [answer],
    and everything else succeeds; the shape never changes. *)
Definition still (shape : list (DOMQuad lib0)) (hit : Element)
    (answer : Result json0) : Remote lib0 :=
  {| getContentQuads := fun _ _ => Ok shape;
     describeNode := fun _ el _ _ => Ok {| proto.FrameID := ObjectID el |};
     pageEval := fun _ _ _ => Ok (JPoint 3 40);
     pageEvalWithOptions := fun _ _ _ _ => answer;
     pageElementFromPoint := fun _ _ _ _ => Ok hit;
     pageHasElement := fun _ _ _ => Ok true;
     pageElements := fun _ _ _ => Ok [];
     pageResolveNode := fun _ _ _ => Ok EmptyString;
     pageRelease := fun _ _ _ _ => None;
     sleeper := fun _ _ => None;
     selected := fun _ _ => Tick |}.

(** A browser where the element is visible (or the visibility check
    answers [visible]), whose shape keeps changing until the history has
    [settle] entries, and whose scope is canceled once the history has
    [cancel] entries. *)
Definition animated (settle cancel : nat) (visible : Result json0)
    : Remote lib0 :=
  {| getContentQuads := fun tr _ =>
       Ok ([[Z.of_nat (Nat.min (List.length tr) settle)]]
             : list (DOMQuad lib0));
     describeNode := fun _ el _ _ => Ok {| proto.FrameID := ObjectID el |};
     pageEval := fun _ _ _ => Ok (JPoint 0 0);
     pageEvalWithOptions := fun _ _ _ _ => visible;
     pageElementFromPoint := fun _ _ _ _ => Ok button_el;
     pageHasElement := fun _ _ _ => Ok true;
     pageElements := fun _ _ _ => Ok [];
     pageResolveNode := fun _ _ _ => Ok EmptyString;
     pageRelease := fun _ _ _ _ => None;
     sleeper := fun _ _ => None;
     selected := fun tr _ =>
       if (List.length tr <? cancel)%nat then Tick
       else Done (Failure "context canceled") |}.

Section Rounds.

Context {L : Lib} (R : Remote L).
Variable el : Element.

(** One round of the loop: wait on the [select], then sample. *)
Definition round : Trace := [Select (ctx el); DOMGetContentQuads el].

(** The history after [j] rounds. *)
Fixpoint rounds (tr : Trace) (j : nat) : Trace :=
  match j with
  | O => tr
  | S j' => rounds (tr ++ round) j'
  end.

(** In each of the first [k] rounds after [tr] the ticker fires and the
    sample differs from the one before; [smp j] is sample number [j], and
    [smp 0] was taken before the loop. *)
Definition differing (smp : nat -> list (DOMQuad L)) (tr : Trace) (k : nat)
    : Prop :=
  forall j, (j < k)%nat ->
    selected R (rounds tr j) (ctx el) = Tick /\
    getContentQuads R (rounds tr j ++ [Select (ctx el)]) el = Ok (smp (S j)) /\
    DeepEqual L (smp j) (smp (S j)) = false.

End Rounds.

Local Set Warnings "-register-all".

(** What the browser shows of one iframe during a search: the element, the
    answers to [Describe] on it, to [resolveNode] and to
    [Elements("iframe")] on its page ([listed] is the error of the latter,
    if any), and the iframes inside it. *)
Inductive Iframe : Type :=
| mkIframe (f : Element) (described : Result proto.DOMNode)
    (resolved : Result proto.RuntimeRemoteObjectID)
    (listed : option error) (inner : list Iframe).

Definition iframe_el (v : Iframe) : Element :=
  match v with mkIframe f _ _ _ _ => f end.

Definition inner_of (v : Iframe) : list Iframe :=
  match v with mkIframe _ _ _ _ inner => inner end.

(** The page [Frame] builds for the iframe [f] described by [node]. *)
Definition child_page (f : Element) (node : proto.DOMNode) : Page :=
  {| FrameID := proto.FrameID node;
     SessionID := SessionID (page f);
     element := Some f;
     jsHelperObjectID := EmptyString;
     windowObjectID := EmptyString |}.

Definition frame_id (v : Iframe) : proto.PageFrameID :=
  match v with
  | mkIframe _ (Ok node) _ _ _ => proto.FrameID node
  | _ => EmptyString
  end.

(** What a visit to one iframe decides. *)
Inductive Verdict : Type :=
| Miss (p : Page)
| Hit (p : Page) (objID : proto.RuntimeRemoteObjectID)
| Broken (err : error).

Definition verdict (v : Iframe) : Verdict :=
  match v with
  | mkIframe f described resolved listed _ =>
      match described with
      | Fail err => Broken err
      | Ok node =>
          match resolved with
          | Fail err => Broken err
          | Ok objID =>
              if negb (String.eqb objID EmptyString) then
                Hit (child_page f node) objID
              else
                match listed with
                | Some err => Broken err
                | None => Miss (child_page f node)
                end
          end
      end
  end.

Definition missed (v : Iframe) : Prop :=
  match verdict v with Miss _ => True | _ => False end.

(** The requests a visit to one iframe makes. *)
Definition visit (nodeID : proto.DOMNodeID) (v : Iframe) : Trace :=
  match v with
  | mkIframe f described resolved _ _ =>
      DOMDescribeNode f 1 false ::
      match described with
      | Fail _ => []
      | Ok node =>
          PageResolveNode (child_page f node) nodeID ::
          match resolved with
          | Fail _ => []
          | Ok objID =>
              if negb (String.eqb objID EmptyString) then []
              else [PageElements (child_page f node) "iframe"]
          end
      end
  end.

(** Document order: an iframe, then the iframes inside it, then its next
    sibling. *)
Fixpoint preorder (v : Iframe) : list Iframe :=
  match v with
  | mkIframe _ _ _ _ inner => v :: flat_map preorder inner
  end.

Definition document_order (vs : list Iframe) : list Iframe :=
  flat_map preorder vs.

Fixpoint depth (v : Iframe) : nat :=
  match v with
  | mkIframe _ _ _ _ inner =>
      S (fold_right (fun v' d => Nat.max (depth v') d) O inner)
  end.

Definition depths (vs : list Iframe) : nat :=
  fold_right (fun v d => Nat.max (depth v) d) O vs.

(** The frames whose pages were asked to resolve the node, in order. *)
Definition visited (tr : Trace) : list proto.PageFrameID :=
  flat_map
    (fun ev =>
       match ev with
       | PageResolveNode p _ => [FrameID p]
       | _ => []
       end)
    tr.

(** What the search returns on the iframes [vs], listed in document order:
    it passes the misses and stops at the first hit or error. *)
Fixpoint scan (nodeID : proto.DOMNodeID) (el : Element) (tr : Trace)
    (vs : list Iframe) : Walked :=
  match vs with
  | [] => (None, el, tr)
  | v :: vs' =>
      match verdict v with
      | Miss _ => scan nodeID el (tr ++ visit nodeID v) vs'
      | Hit p objID => (Some io_EOF, rebind el p objID, tr ++ visit nodeID v)
      | Broken err => (Some err, el, tr ++ visit nodeID v)
      end
  end.

Fixpoint position (x : string) (l : list string) : option nat :=
  match l with
  | [] => None
  | y :: l' =>
      if String.eqb x y then Some O else option_map S (position x l')
  end.

(** [x] occurs in [l], and before the first [y]. *)
Definition precedes (x y : string) (l : list string) : bool :=
  match position x l, position y l with
  | Some i, Some j => (i <? j)%nat
  | Some _, None => true
  | None, _ => false
  end.

(** The order C8 states for the iframes [vs] of one page: each of them is
    visited before any iframe nested in one of them. *)
Definition siblings_before_nested (vs : list Iframe)
    (order : list proto.PageFrameID) : Prop :=
  forall a b c,
    In a vs -> In b vs -> In c (inner_of a) ->
    In (frame_id c) order ->
    precedes (frame_id b) (frame_id c) order = true.

(** A page with two iframes A and B; A holds A1, B holds B1, B1 holds B2;
    [resolve] says what the document of each frame answers for the node. *)
Definition iframe_on (p : Page) (id : string) : Element :=
  {| ctx := O; page := p; ObjectID := id |}.

Definition frames (resolve : string -> Result proto.RuntimeRemoteObjectID)
    : Remote lib0 :=
  {| getContentQuads := fun _ _ => Ok ([] : list (DOMQuad lib0));
     describeNode := fun _ el _ _ => Ok {| proto.FrameID := ObjectID el |};
     pageEval := fun _ _ _ => Ok JNull;
     pageEvalWithOptions := fun _ _ _ _ => Ok JNull;
     pageElementFromPoint := fun _ _ _ _ => Ok button_el;
     pageHasElement := fun _ _ _ => Ok false;
     pageElements := fun _ p _ =>
       Ok (map (iframe_on p)
             (if String.eqb (FrameID p) "main" then ["A"; "B"]
              else if String.eqb (FrameID p) "A" then ["A1"]
              else if String.eqb (FrameID p) "B" then ["B1"]
              else if String.eqb (FrameID p) "B1" then ["B2"]
              else []));
     pageResolveNode := fun _ p _ => resolve (FrameID p);
     pageRelease := fun _ _ _ _ => None;
     sleeper := fun _ _ => None;
     selected := fun _ _ => Tick |}.

Definition frame_page (p : Page) (id : string) : Page :=
  child_page (iframe_on p id) {| proto.FrameID := id |}.

Definition view (resolve : string -> Result proto.RuntimeRemoteObjectID)
    (p : Page) (id : string) (inner : list Iframe) : Iframe :=
  mkIframe (iframe_on p id) (Ok {| proto.FrameID := id |}) (resolve id) None
    inner.

Definition views (resolve : string -> Result proto.RuntimeRemoteObjectID)
    : list Iframe :=
  let pA := frame_page main_page "A" in
  let pB := frame_page main_page "B" in
  let pB1 := frame_page pB "B1" in
  [ view resolve main_page "A" [view resolve pA "A1" []];
    view resolve main_page "B"
      [view resolve pB "B1" [view resolve pB1 "B2" []]] ].

(** Only the document of B2, three levels down, resolves the node. *)
Definition in_B2 (id : string) : Result proto.RuntimeRemoteObjectID :=
  Ok (if String.eqb id "B2" then "node-in-B2" else EmptyString).

(** The same, but the document of A1 is gone. *)
Definition lost_in_A1 (id : string) : Result proto.RuntimeRemoteObjectID :=
  if String.eqb id "A1" then Fail (Failure "detached") else in_B2 id.

Definition nested : Remote lib0 := frames in_B2.
Definition nested_views : list Iframe := views in_B2.

Definition stale_el : Element :=
  {| ctx := O; page := main_page; ObjectID := "stale" |}.

(** A browser that does not know the object and whose connection ends with
    [io.EOF] ([eof = true]) or fails otherwise when the iframes are
    listed. *)
Definition closing (eof : bool) : Remote lib0 :=
  {| getContentQuads := fun _ _ => Ok ([] : list (DOMQuad lib0));
     describeNode := fun _ el _ _ => Ok {| proto.FrameID := ObjectID el |};
     pageEval := fun _ _ _ => Ok JNull;
     pageEvalWithOptions := fun _ _ _ _ => Ok JNull;
     pageElementFromPoint := fun _ _ _ _ => Ok button_el;
     pageHasElement := fun _ _ _ => Ok false;
     pageElements := fun _ _ _ =>
       Fail (if eof then io_EOF else Failure "closed");
     pageResolveNode := fun _ _ _ => Ok EmptyString;
     pageRelease := fun _ _ _ _ => None;
     sleeper := fun _ _ => None;
     selected := fun _ _ => Tick |}.

(** A browser whose connection already ends with [io.EOF] when the page
    is asked whether it knows the object. *)
Definition eof_at_check : Remote lib0 :=
  {| getContentQuads := getContentQuads (closing true);
     describeNode := describeNode (closing true);
     pageEval := pageEval (closing true);
     pageEvalWithOptions := pageEvalWithOptions (closing true);
     pageElementFromPoint := pageElementFromPoint (closing true);
     pageHasElement := fun _ _ _ => Fail io_EOF;
     pageElements := pageElements (closing true);
     pageResolveNode := pageResolveNode (closing true);
     pageRelease := pageRelease (closing true);
     sleeper := sleeper (closing true);
     selected := selected (closing true) |}.

Section Shown.

Context {L : Lib} (R : Remote L).
Variable nodeID : proto.DOMNodeID.

(** The browser answers about the iframe [v] and everything below it as
    [v] says, whatever was asked before. *)
Fixpoint shows (v : Iframe) : Prop :=
  match v with
  | mkIframe f described resolved listed inner =>
      (forall tr, describeNode R tr f 1 false = described) /\
      match described with
      | Fail _ => True
      | Ok node =>
          let p := child_page f node in
          (forall tr, pageResolveNode R tr p nodeID = resolved) /\
          match resolved with
          | Fail _ => True
          | Ok objID =>
              if negb (String.eqb objID EmptyString) then True
              else
                match listed with
                | Some err =>
                    forall tr, pageElements R tr p "iframe" = Fail err
                | None =>
                    (forall tr,
                       pageElements R tr p "iframe"
                         = Ok (map iframe_el inner)) /\
                    (fix all (vs : list Iframe) : Prop :=
                       match vs with
                       | [] => True
                       | v' :: vs' => shows v' /\ all vs'
                       end) inner
                end
          end
      end
  end.

Fixpoint all_show (vs : list Iframe) : Prop :=
  match vs with
  | [] => True
  | v :: vs' => shows v /\ all_show vs'
  end.

End Shown.

(** [ensureParentPage] turns the sentinel [io.EOF] of the search into
    [nil]. *)
Definition settle (w : Walked) : Walked :=
  match w with
  | (Some err, el', tr') =>
      if is_EOF err then (None, el', tr') else (Some err, el', tr')
  | (None, el', tr') => (None, el', tr')
  end.

End ElementModel.

(** ** Waiting: polls of the visibility check, and the time of ticks *)

Module WaitModel.
Import Int64 Element ElementModel.

Local Open Scope string_scope.
Local Open Scope list_scope.

Section Polls.

Context {L : Lib} (R : Remote L).
Variable el : Element.

(** The evaluation [WaitVisible] repeats: the helper [js.Visible] with
    [this] bound to the element. *)
Definition visible_options : EvalOptions :=
  let opts := jsHelper L (js_Visible L) [] in
  This (NewEvalOptions (JS opts) (JSArgs opts)) (ObjectID el).

Definition visible_check : Event :=
  PageEvalWithOptions (page el) (ctx el) visible_options.

(** One poll that did not end the wait: the check, then the sleeper. *)
Definition poll : Trace := [visible_check; Sleep (ctx el)].

Fixpoint polls (tr : Trace) (j : nat) : Trace :=
  match j with
  | O => tr
  | S j' => polls (tr ++ poll) j'
  end.

(** At [tr] the check answers a value that is not true and the sleeper
    lets the wait go on. *)
Definition not_yet (tr : Trace) : Prop :=
  (exists res,
     pageEvalWithOptions R tr (page el) (ctx el) visible_options = Ok res /\
     Bool L res = false) /\
  sleeper R (tr ++ [visible_check]) (ctx el) = None.

(** From [tr] to [tr1] the check was polled until it answered true, which
    it did in the last event of [tr1]. *)
Definition saw_visible (tr tr1 : Trace) : Prop :=
  exists j res,
    tr1 = polls tr j ++ [visible_check] /\
    pageEvalWithOptions R (polls tr j) (page el) (ctx el) visible_options
      = Ok res /\
    Bool L res = true /\
    forall i, (i < j)%nat -> not_yet (polls tr i).

End Polls.

(** The events that wait on a ticker or create it. *)
Definition is_wait (ev : Event) : bool :=
  match ev with
  | Select _ | NewTicker _ => true
  | _ => false
  end.

(** Both functions read a history from its end. *)
Fixpoint back_to_wait (rh : list Event) : list Event :=
  match rh with
  | [] => []
  | ev :: rh' => if is_wait ev then rh else back_to_wait rh'
  end.

Fixpoint period_back (rh : list Event) : option Z :=
  match rh with
  | [] => None
  | NewTicker d :: _ => Some d
  | _ :: rh' => period_back rh'
  end.

(** The history up to the latest wait on the ticker or its creation. *)
Definition last_wait (h : Trace) : Trace := rev (back_to_wait (rev h)).

(** The period of the ticker created last. *)
Definition period_of (h : Trace) : option Z := period_back (rev h).

Section Ticker.

Context {L : Lib} (R : Remote L).
Variable el : Element.

(** The law of [time.Ticker], for a reading [stamp] of the time values:
    [stamp h] is the time of the last event of [h], for a [select] that
    received a tick the time value read from the channel.  A tick is at
    least one period later than the tick received before it, and the
    first tick at least one period later than the creation. *)
Definition ticker_law (stamp : Trace -> Z) : Prop :=
  forall h d,
    selected R h (ctx el) = Tick ->
    period_of h = Some d ->
    stamp (h ++ [Select (ctx el)]) >= stamp (last_wait h) + d.

(** The wait before round [j] of the loop that starts at [tr0]: the
    creation of the ticker, or the [select] of the round before. *)
Definition previous_wait (tr0 : Trace) (j : nat) : Trace :=
  match j with
  | O => tr0
  | S j' => rounds el tr0 j' ++ [Select (ctx el)]
  end.

End Ticker.

(** A clock for the examples: every tick comes exactly one period after
    the wait before it. *)
Fixpoint stamp_back (rh : list Event) : Z :=
  match rh with
  | [] => 0
  | Select _ :: rh' =>
      stamp_back rh' + match period_back rh' with Some d => d | None => 0 end
  | _ :: rh' => stamp_back rh'
  end.

Definition on_time (h : Trace) : Z := stamp_back (rev h).

(** A browser where the visibility check answers true once the history
    has [appear] entries; shapes and scope as in [animated]. *)
Definition lively (appear settle cancel : nat) : Remote lib0 :=
  {| getContentQuads := getContentQuads (animated settle cancel (Ok JNull));
     describeNode := describeNode (animated settle cancel (Ok JNull));
     pageEval := pageEval (animated settle cancel (Ok JNull));
     pageEvalWithOptions := fun tr _ _ _ =>
       Ok (JBool (appear <=? List.length tr)%nat);
     pageElementFromPoint :=
       pageElementFromPoint (animated settle cancel (Ok JNull));
     pageHasElement := pageHasElement (animated settle cancel (Ok JNull));
     pageElements := pageElements (animated settle cancel (Ok JNull));
     pageResolveNode := pageResolveNode (animated settle cancel (Ok JNull));
     pageRelease := pageRelease (animated settle cancel (Ok JNull));
     sleeper := sleeper (animated settle cancel (Ok JNull));
     selected := selected (animated settle cancel (Ok JNull)) |}.

End WaitModel.

(** ** Shapes of histories *)

Module ExtraModel.
Import Int64 Element ElementModel.

(** [z] lies between [a] and [b], whichever is larger. *)
Definition between (a b z : Z) : Prop := Z.min a b <= z <= Z.max a b.

(** The events of the sampling loop of [WaitStable] on [el]. *)
Definition loop_event (el : Element) (ev : Event) : Prop :=
  ev = Select (ctx el) \/ ev = DOMGetContentQuads el.

(** The number of iframes in a list of frame trees. *)
Definition frame_count (vs : list Iframe) : nat :=
  List.length (document_order vs).

(** The handle [el'] is [el] bound to the page of some iframe and to a
    non-empty object id. *)
Definition relocated (el el' : Element) : Prop :=
  exists f node objID,
    objID <> EmptyString /\ el' = rebind el (child_page f node) objID.

End ExtraModel.

(** * Properties

    ** Arithmetic of [int64] *)

Module Int64Facts.
Import Int64.

Lemma wrap_in_range z : in_range (wrap z).
Proof.
  unfold in_range, wrap, min_int, max_int.
  pose proof (Z.mod_pos_bound (z + 2 ^ 63) (2 ^ 64) ltac:(lia)). lia.
Qed.

Lemma wrap_id z : in_range z -> wrap z = z.
Proof.
  unfold in_range, wrap, min_int, max_int. intros H.
  rewrite Z.mod_small by lia. lia.
Qed.

Lemma wrap_add_l a b : wrap (wrap a + b) = wrap (a + b).
Proof.
  unfold wrap.
  replace ((a + 2 ^ 63) mod 2 ^ 64 - 2 ^ 63 + b + 2 ^ 63)
    with ((a + 2 ^ 63) mod 2 ^ 64 + b) by lia.
  rewrite Z.add_mod_idemp_l by lia.
  replace (a + 2 ^ 63 + b) with (a + b + 2 ^ 63) by lia. reflexivity.
Qed.

Lemma wrap_add_r a b : wrap (a + wrap b) = wrap (a + b).
Proof. rewrite Z.add_comm, wrap_add_l, Z.add_comm. reflexivity. Qed.

Lemma add_sub_cancel a b : in_range b -> add a (sub b a) = b.
Proof.
  intros H. unfold add, sub. rewrite wrap_add_r.
  replace (a + (b - a)) with b by lia. now apply wrap_id.
Qed.

Lemma quo_in_range a b : in_range a -> 1 <= b -> quo a b = Z.quot a b.
Proof.
  intros Ha Hb. unfold quo. apply wrap_id.
  unfold in_range, min_int, max_int in *.
  destruct (Z.le_ge_cases 0 a) as [H0|H0].
  - pose proof (Z.quot_pos a b H0 ltac:(lia)).
    pose proof (Z.quot_le_upper_bound a b a ltac:(lia)) as Hu.
    assert (a <= b * a) by nia. lia.
  - assert (Hq : Z.quot a b = - Z.quot (- a) b)
      by (rewrite Z.quot_opp_l by lia; lia).
    pose proof (Z.quot_pos (- a) b ltac:(lia) ltac:(lia)).
    pose proof (Z.quot_le_upper_bound (- a) b (- a) ltac:(lia)) as Hu.
    assert (- a <= b * - a) by nia. lia.
Qed.



Lemma quot_rem_toward (d n : Z) :
  1 <= n ->
  Z.abs (Z.rem d n) < n /\
  ((0 <= d -> 0 <= Z.rem d n <= d) /\ (d <= 0 -> d <= Z.rem d n <= 0)).
Proof.
  intros Hn. pose proof (Z.quot_rem' d n) as E. split; [|split].
  - pose proof (Z.rem_bound_abs d n ltac:(lia)). lia.
  - intros Hd. pose proof (Z.rem_bound_pos d n Hd ltac:(lia)).
    pose proof (Z.quot_pos d n Hd ltac:(lia)). nia.
  - intros Hd.
    pose proof (Z.rem_bound_pos (- d) n ltac:(lia) ltac:(lia)) as Hr.
    pose proof (Z.quot_pos (- d) n ltac:(lia) ltac:(lia)) as Hq.
    rewrite Z.rem_opp_l in Hr by lia. rewrite Z.quot_opp_l in Hq by lia. nia.
Qed.

(** Applying the stride [d / n] [n] times from [a] when [b - a] fits. *)
Lemma stride_lands (a b n : Z) :
  in_range a -> in_range b -> in_range (b - a) -> 1 <= n ->
  let d := sub b a in
  d = b - a /\
  wrap (a + n * quo d n) = b - Z.rem d n /\
  Z.abs (b - wrap (a + n * quo d n)) < n.
Proof.
  intros Ha Hb Hd Hn d.
  assert (Ed : d = b - a) by (unfold d, sub; now apply wrap_id).
  split; [exact Ed|].
  rewrite quo_in_range by (subst d; unfold sub; auto using wrap_in_range).
  pose proof (Z.quot_rem' d n) as E.
  destruct (quot_rem_toward d n Hn) as (Habs & Hpos & Hneg).
  assert (Hin : in_range (b - Z.rem d n)).
  { unfold in_range in *. destruct (Z.le_ge_cases 0 d) as [H0|H0].
    - specialize (Hpos H0). lia.
    - specialize (Hneg H0). lia. }
  replace (a + n * Z.quot d n) with (b - Z.rem d n) by lia.
  rewrite (wrap_id _ Hin). split; [reflexivity|].
  replace (b - (b - Z.rem d n)) with (Z.rem d n) by lia. exact Habs.
Qed.

(** A stride that divides the computed difference lands exactly, with or
    without overflow. *)
Lemma stride_exact (a b n : Z) :
  in_range b -> 1 <= n -> Z.rem (sub b a) n = 0 ->
  wrap (a + n * quo (sub b a) n) = b.
Proof.
  intros Hb Hn Hr.
  rewrite quo_in_range by (unfold sub; auto using wrap_in_range).
  pose proof (Z.quot_rem' (sub b a) n) as E. rewrite Hr in E.
  replace (n * Z.quot (sub b a) n) with (sub b a) by lia.
  unfold sub. rewrite wrap_add_r. replace (a + (b - a)) with b by lia.
  now apply wrap_id.
Qed.

End Int64Facts.

(** ** The mouse *)

Module MouseSpec.
Import Int64 Int64Facts Mouse MouseModel.

Section Properties.

Variable error : Type.
Variable Call : Trace -> string -> Object -> option error.
Variable EncodeMouseButton : list string -> string * Z.

Abbreviation move_loop := (Mouse.move_loop error Call).
Abbreviation MoveE := (Mouse.MoveE error Call EncodeMouseButton).
Abbreviation DownE := (Mouse.DownE error Call EncodeMouseButton).
Abbreviation UpE := (Mouse.UpE error Call EncodeMouseButton).
Abbreviation ClickE := (Mouse.ClickE error Call EncodeMouseButton).
Abbreviation Down := (Mouse.Down error Call EncodeMouseButton).
Abbreviation Up := (Mouse.Up error Call EncodeMouseButton).
Abbreviation answer := (MouseModel.answer error Call).

Lemma at_step_buttons sx sy k m :
  buttons (at_step sx sy k m) = buttons m /\
  page (at_step sx sy k m) = page m.
Proof.
  revert m. induction k as [|k IH]; intros m; simpl; [easy|].
  destruct (IH (step sx sy m)) as [-> ->]. easy.
Qed.

Lemma at_step_xy sx sy k m :
  in_range (x m) -> in_range (y m) ->
  x (at_step sx sy k m) = wrap (x m + Z.of_nat k * sx) /\
  y (at_step sx sy k m) = wrap (y m + Z.of_nat k * sy).
Proof.
  revert m. induction k as [|k IH]; intros m Hx Hy.
  - simpl. rewrite !Z.add_0_r, !wrap_id by assumption. easy.
  - cbn [at_step].
    destruct (IH (step sx sy m)) as [Ex Ey];
      [apply wrap_in_range | apply wrap_in_range |].
    rewrite Ex, Ey. cbn [step set_xy x y]. unfold add.
    rewrite !wrap_add_l. split; f_equal; lia.
Qed.

(** The loop of [MoveE] commits exactly the steps whose event the browser
    accepted, and stops at the first rejected one. *)
Lemma move_loop_commits sx sy button btns n :
  forall m tr,
  exists k : nat,
    (k <= n)%nat /\
    (forall j, (j < k)%nat -> answer sx sy button btns m tr j = None) /\
    ((k = n /\
      move_loop n sx sy button btns m tr =
        (None, at_step sx sy k m,
         tr ++ move_requests sx sy button btns k m))
     \/
     (exists err, (k < n)%nat /\
        answer sx sy button btns m tr k = Some err /\
        move_loop n sx sy button btns m tr =
          (Some err, at_step sx sy k m,
           tr ++ move_requests sx sy button btns (S k) m))).
Proof.
  induction n as [|n IH]; intros m tr.
  - exists O. split; [lia|]. split; [intros j Hj; lia|].
    left. simpl. now rewrite app_nil_r.
  - cbn [Mouse.move_loop].
    destruct (Call tr dispatch
                (mouseMoved m (add (x m) sx) (add (y m) sy) button btns))
      as [err|] eqn:HC.
    + exists O. split; [lia|]. split; [intros j Hj; lia|].
      right. exists err. split; [lia|]. split.
      * unfold answer. simpl. now rewrite app_nil_r.
      * reflexivity.
    + destruct (IH (set_xy m (add (x m) sx) (add (y m) sy))
                  (tr ++ [(dispatch,
                           mouseMoved m (add (x m) sx) (add (y m) sy)
                             button btns)]))
        as (k & Hk & Hacc & Hres).
      exists (S k). split; [lia|]. split.
      * intros [|j] Hj.
        -- unfold answer. simpl. now rewrite app_nil_r.
        -- specialize (Hacc j ltac:(lia)). unfold answer in *.
           cbn [move_requests at_step]. unfold move_request at 1.
           rewrite <- app_assoc in Hacc. exact Hacc.
      * destruct Hres as [[-> E]|(err & Hlt & Hans & E)].
        -- left. split; [reflexivity|]. rewrite E.
           rewrite <- app_assoc. reflexivity.
        -- right. exists err. split; [lia|]. split.
           ++ unfold answer in *. cbn [move_requests at_step].
              unfold move_request at 1.
              rewrite <- app_assoc in Hans. exact Hans.
           ++ rewrite E. rewrite <- app_assoc. reflexivity.
Qed.

Lemma move_loop_success sx sy button btns n m tr m' tr' :
  move_loop n sx sy button btns m tr = (None, m', tr') ->
  m' = at_step sx sy n m.
Proof.
  intros H.
  destruct (move_loop_commits sx sy button btns n m tr)
    as (k & _ & _ & [[-> E]|(err & _ & _ & E)]); rewrite E in H.
  - now inversion H.
  - discriminate.
Qed.

Lemma released_spec button bs :
  released button bs = filter (fun btn => negb (String.eqb btn button)) bs.
Proof.
  induction bs as [|b bs IH]; simpl; [reflexivity|].
  destruct (String.eqb b button); simpl; now rewrite IH.
Qed.

Lemma released_not_In button bs : ~ In button (released button bs).
Proof.
  rewrite released_spec, filter_In. intros [_ H].
  now rewrite String.eqb_refl in H.
Qed.

Lemma released_absent button bs :
  ~ In button bs -> released button bs = bs.
Proof.
  induction bs as [|b bs IH]; simpl; intros H; [reflexivity|].
  destruct (String.eqb_spec b button) as [->|_].
  - exfalso. apply H. now left.
  - f_equal. apply IH. intros Hin. apply H. now right.
Qed.

Lemma released_idem button bs :
  released button (released button bs) = released button bs.
Proof. apply released_absent, released_not_In. Qed.

Lemma MoveE_unfold m x' y' steps tr :
  MoveE m x' y' steps tr =
    move_loop (Z.to_nat (Z.max 1 steps))
      (quo (sub x' (x m)) (Z.max 1 steps))
      (quo (sub y' (y m)) (Z.max 1 steps))
      (fst (EncodeMouseButton (buttons m)))
      (snd (EncodeMouseButton (buttons m))) m tr.
Proof.
  unfold Mouse.MoveE.
  assert (E : (if steps <? 1 then 1 else steps) = Z.max 1 steps).
  { destruct (Z.ltb_spec steps 1); lia. }
  rewrite E. now destruct (EncodeMouseButton (buttons m)).
Qed.

Lemma DownE_unfold m button clicks tr :
  let p := mousePressed m button
             (snd (EncodeMouseButton (buttons m ++ [button]))) clicks in
  DownE m button clicks tr =
    match Call tr dispatch p with
    | Some err => (Some err, m, tr ++ [(dispatch, p)])
    | None =>
        (None, set_buttons m (buttons m ++ [button]), tr ++ [(dispatch, p)])
    end.
Proof.
  unfold Mouse.DownE.
  now destruct (EncodeMouseButton (buttons m ++ [button])).
Qed.

Lemma UpE_unfold m button clicks tr :
  let p := mouseReleased m button
             (snd (EncodeMouseButton (released button (buttons m)))) clicks in
  UpE m button clicks tr =
    match Call tr dispatch p with
    | Some err => (Some err, m, tr ++ [(dispatch, p)])
    | None =>
        (None, set_buttons m (released button (buttons m)),
         tr ++ [(dispatch, p)])
    end.
Proof.
  unfold Mouse.UpE.
  now destruct (EncodeMouseButton (released button (buttons m))).
Qed.

Lemma DownE_success m button clicks tr m' tr' :
  DownE m button clicks tr = (None, m', tr') ->
  m' = set_buttons m (buttons m ++ [button]).
Proof.
  rewrite DownE_unfold. cbv zeta.
  destruct (Call tr dispatch _); intros H; now inversion H.
Qed.

Lemma UpE_success m button clicks tr m' tr' :
  UpE m button clicks tr = (None, m', tr') ->
  m' = set_buttons m (released button (buttons m)).
Proof.
  rewrite UpE_unfold. cbv zeta.
  destruct (Call tr dispatch _); intros H; now inversion H.
Qed.

(** C1, as amended.  [MoveE] treats [steps < 1] as 1.  When every event is
    accepted, the mouse ends where [steps] applications of the stride
    [(target - current) / steps], computed once with truncating [int64]
    division, take it: a function of start, target and steps alone.  With
    one step that is the target; with a stride that divides the computed
    difference it is the target; and whenever [target - current] fits in
    [int64], it is less than [steps] units away from the target on each
    axis. *)
Theorem MoveE_lands (m : Mouse) (x' y' steps : Z) (tr : Trace) :
  let n := Z.max 1 steps in
  let dx := sub x' (x m) in
  let dy := sub y' (y m) in
  (steps < 1 -> MoveE m x' y' steps tr = MoveE m x' y' 1 tr) /\
  (forall m' tr',
     in_range (x m) -> in_range (y m) -> in_range x' -> in_range y' ->
     MoveE m x' y' steps tr = (None, m', tr') ->
     m' = at_step (quo dx n) (quo dy n) (Z.to_nat n) m /\
     x m' = wrap (x m + n * quo dx n) /\
     y m' = wrap (y m + n * quo dy n) /\
     (n = 1 -> x m' = x' /\ y m' = y') /\
     (Z.rem dx n = 0 -> x m' = x') /\
     (Z.rem dy n = 0 -> y m' = y') /\
     (in_range (x' - x m) -> dx = x' - x m /\ Z.abs (x' - x m') < n) /\
     (in_range (y' - y m) -> dy = y' - y m /\ Z.abs (y' - y m') < n)).
Proof.
  intros n dx dy. split.
  - intros Hlt. rewrite !MoveE_unfold.
    replace (Z.max 1 steps) with (Z.max 1 1) by lia. reflexivity.
  - intros m' tr' Hx Hy Hx' Hy' H.
    rewrite MoveE_unfold in H. apply move_loop_success in H.
    fold n dx dy in H.
    assert (Hn : 1 <= n) by (unfold n; lia).
    destruct (at_step_xy (quo dx n) (quo dy n) (Z.to_nat n) m Hx Hy)
      as [Ex Ey].
    rewrite Z2Nat.id in Ex, Ey by lia. rewrite <- H in Ex, Ey.
    split; [exact H|]. split; [exact Ex|]. split; [exact Ey|].
    rewrite Ex, Ey.
    split; [|split; [|split; [|split]]].
    + intros ->. split; apply stride_exact; auto; apply Z.rem_1_r.
    + intros Hr. now apply stride_exact.
    + intros Hr. now apply stride_exact.
    + intros Hd.
      destruct (stride_lands (x m) x' n Hx Hx' Hd Hn) as (E & _ & Hb).
      split; [exact E | exact Hb].
    + intros Hd.
      destruct (stride_lands (y m) y' n Hy Hy' Hd Hn) as (E & _ & Hb).
      split; [exact E | exact Hb].
Qed.

(** C2.  A successful [DownE] appends the button whatever the sequence
    holds, a successful [UpE] keeps exactly the buttons different from it;
    hence the three sequences of presses and releases of the
    specification. *)
Theorem Down_appends_Up_removes_all :
  (forall m b clicks tr m' tr',
     DownE m b clicks tr = (None, m', tr') ->
     buttons m' = buttons m ++ [b]) /\
  (forall m b clicks tr m' tr',
     UpE m b clicks tr = (None, m', tr') ->
     buttons m' =
       filter (fun btn => negb (String.eqb btn b)) (buttons m)) /\
  (forall m tr m1 tr1 m2 tr2,
     buttons m = [] ->
     Down m "left" tr = (None, m1, tr1) ->
     Up m1 "left" tr1 = (None, m2, tr2) ->
     buttons m2 = []) /\
  (forall m tr m1 tr1 m2 tr2 m3 tr3,
     buttons m = [] ->
     Down m "left" tr = (None, m1, tr1) ->
     Down m1 "right" tr1 = (None, m2, tr2) ->
     Up m2 "left" tr2 = (None, m3, tr3) ->
     buttons m3 = ["right"%string]) /\
  (forall m tr m1 tr1 m2 tr2 m3 tr3,
     buttons m = [] ->
     Down m "left" tr = (None, m1, tr1) ->
     Down m1 "left" tr1 = (None, m2, tr2) ->
     Up m2 "left" tr2 = (None, m3, tr3) ->
     buttons m2 = ["left"%string; "left"%string] /\ buttons m3 = []).
Proof.
  split; [|split; [|split; [|split]]].
  - intros m b clicks tr m' tr' H. now rewrite (DownE_success _ _ _ _ _ _ H).
  - intros m b clicks tr m' tr' H. rewrite (UpE_success _ _ _ _ _ _ H).
    apply released_spec.
  - intros m tr m1 tr1 m2 tr2 Hm H1 H2.
    rewrite (UpE_success _ _ _ _ _ _ H2), (DownE_success _ _ _ _ _ _ H1).
    simpl. rewrite Hm. reflexivity.
  - intros m tr m1 tr1 m2 tr2 m3 tr3 Hm H1 H2 H3.
    rewrite (UpE_success _ _ _ _ _ _ H3), (DownE_success _ _ _ _ _ _ H2),
      (DownE_success _ _ _ _ _ _ H1).
    simpl. rewrite Hm. reflexivity.
  - intros m tr m1 tr1 m2 tr2 m3 tr3 Hm H1 H2 H3.
    rewrite (UpE_success _ _ _ _ _ _ H3), (DownE_success _ _ _ _ _ _ H2),
      (DownE_success _ _ _ _ _ _ H1).
    simpl. rewrite Hm. split; reflexivity.
Qed.

(** C5.  [MoveE] commits the position after each accepted event: if [k]
    events were accepted and the next one is rejected with [err], it returns
    [err] with the mouse at the position of step [k]; if all were accepted
    it returns [nil] at the last position.  [DownE] and [UpE] return the
    error of their one event and leave the mouse as it was, or commit the
    new pressed sequence when the event is accepted. *)
Theorem commit_after_dispatch (m : Mouse) (tr : Trace) :
  (forall x' y' steps,
     let n := Z.to_nat (Z.max 1 steps) in
     let sx := quo (sub x' (x m)) (Z.max 1 steps) in
     let sy := quo (sub y' (y m)) (Z.max 1 steps) in
     let button := fst (EncodeMouseButton (buttons m)) in
     let btns := snd (EncodeMouseButton (buttons m)) in
     exists k : nat,
       (k <= n)%nat /\
       (forall j, (j < k)%nat -> answer sx sy button btns m tr j = None) /\
       buttons (at_step sx sy k m) = buttons m /\
       (in_range (x m) -> in_range (y m) ->
        x (at_step sx sy k m) = wrap (x m + Z.of_nat k * sx) /\
        y (at_step sx sy k m) = wrap (y m + Z.of_nat k * sy)) /\
       ((k = n /\
         MoveE m x' y' steps tr =
           (None, at_step sx sy k m,
            tr ++ move_requests sx sy button btns k m))
        \/
        (exists err, (k < n)%nat /\
           answer sx sy button btns m tr k = Some err /\
           MoveE m x' y' steps tr =
             (Some err, at_step sx sy k m,
              tr ++ move_requests sx sy button btns (S k) m)))) /\
  (forall b clicks,
     let p := mousePressed m b
                (snd (EncodeMouseButton (buttons m ++ [b]))) clicks in
     (forall err, Call tr dispatch p = Some err ->
        DownE m b clicks tr = (Some err, m, tr ++ [(dispatch, p)])) /\
     (Call tr dispatch p = None ->
        DownE m b clicks tr =
          (None, set_buttons m (buttons m ++ [b]), tr ++ [(dispatch, p)]))) /\
  (forall b clicks,
     let p := mouseReleased m b
                (snd (EncodeMouseButton (released b (buttons m)))) clicks in
     (forall err, Call tr dispatch p = Some err ->
        UpE m b clicks tr = (Some err, m, tr ++ [(dispatch, p)])) /\
     (Call tr dispatch p = None ->
        UpE m b clicks tr =
          (None, set_buttons m (released b (buttons m)),
           tr ++ [(dispatch, p)]))).
Proof.
  split; [|split].
  - intros x' y' steps n sx sy button btns.
    destruct (move_loop_commits sx sy button btns n m tr)
      as (k & Hk & Hacc & Hres).
    exists k. split; [exact Hk|]. split; [exact Hacc|].
    split; [apply at_step_buttons|]. split; [apply at_step_xy|].
    rewrite MoveE_unfold. exact Hres.
  - intros b clicks p. rewrite DownE_unfold. fold p.
    split; [intros err H | intros H]; now rewrite H.
  - intros b clicks p. rewrite UpE_unfold. fold p.
    split; [intros err H | intros H]; now rewrite H.
Qed.

(** C6.  [ClickE] presses and releases with click count 1, the left button
    when none is named.  A rejected press is returned and nothing is
    released; a rejected release is returned with the button still in the
    pressed sequence. *)
Theorem ClickE_no_rollback (m : Mouse) (b : string) (tr : Trace) :
  let button := if String.eqb b EmptyString then "left"%string else b in
  let press :=
    (dispatch,
     mousePressed m button
       (snd (EncodeMouseButton (buttons m ++ [button]))) 1) in
  let m1 := set_buttons m (buttons m ++ [button]) in
  let release :=
    (dispatch,
     mouseReleased m1 button
       (snd (EncodeMouseButton (released button (buttons m1)))) 1) in
  (forall err, Call tr dispatch (snd press) = Some err ->
     ClickE m b tr = (Some err, m, tr ++ [press])) /\
  (forall err, Call tr dispatch (snd press) = None ->
     Call (tr ++ [press]) dispatch (snd release) = Some err ->
     ClickE m b tr = (Some err, m1, tr ++ [press; release]) /\
     In button (buttons m1)) /\
  (Call tr dispatch (snd press) = None ->
   Call (tr ++ [press]) dispatch (snd release) = None ->
   ClickE m b tr =
     (None, set_buttons m1 (released button (buttons m1)),
      tr ++ [press; release])).
Proof.
  intros button press m1 release. unfold Mouse.ClickE.
  change Mouse.defaultMouseButton with "left"%string. fold button.
  rewrite DownE_unfold. cbv zeta. fold press. cbn [snd] in *.
  split; [|split].
  - intros err H. unfold press in H |- *. cbn [snd] in H. now rewrite H.
  - intros err H1 H2. unfold press in H1. cbn [snd] in H1. rewrite H1.
    fold m1. rewrite UpE_unfold. cbv zeta.
    unfold release in H2. cbn [snd] in H2. fold press in H2. rewrite H2.
    split.
    + rewrite <- app_assoc. reflexivity.
    + unfold m1. cbn [buttons set_buttons]. apply in_or_app. right. now left.
  - intros H1 H2. unfold press in H1. cbn [snd] in H1. rewrite H1.
    fold m1. rewrite UpE_unfold. cbv zeta.
    unfold release in H2. cbn [snd] in H2. fold press in H2. rewrite H2.
    rewrite <- app_assoc. reflexivity.
Qed.

(** C9.  [UpE] has no error of its own: whether or not the button is
    pressed it sends one [Input.dispatchMouseEvent] of type [mouseReleased]
    for that button, with the encoding of the remaining buttons, the click
    count and the cursor, and returns what the browser answers.  After a
    successful [UpE] the pressed sequence is the old one without the
    occurrences of the button, every other button kept in order; so the
    button does not occur in it, the sequence is the same if the button was
    not pressed, and a second successful [UpE] of the same button changes
    nothing. *)
Theorem UpE_idempotent (m : Mouse) (b : string) (clicks : Z) (tr : Trace) :
  let p :=
    [ ("type", VString "mouseReleased");
      ("button", VString b);
      ("buttons",
       VInt (snd (EncodeMouseButton
                    (filter (fun btn => negb (String.eqb btn b))
                       (buttons m)))));
      ("clickCount", VInt clicks);
      ("x", VInt (x m));
      ("y", VInt (y m)) ]%string in
  fst (fst (UpE m b clicks tr)) = Call tr "Input.dispatchMouseEvent" p /\
  snd (UpE m b clicks tr) = tr ++ [("Input.dispatchMouseEvent"%string, p)] /\
  (forall m' tr',
     UpE m b clicks tr = (None, m', tr') ->
     buttons m' = filter (fun btn => negb (String.eqb btn b)) (buttons m) /\
     ~ In b (buttons m') /\
     (forall c, c <> b -> (In c (buttons m') <-> In c (buttons m))) /\
     (~ In b (buttons m) -> buttons m' = buttons m) /\
     (forall clicks' m'' tr'',
        UpE m' b clicks' tr' = (None, m'', tr'') ->
        buttons m'' = buttons m')).
Proof.
  intros p.
  assert (Ep : p = mouseReleased m b
                 (snd (EncodeMouseButton (released b (buttons m)))) clicks).
  { unfold p, mouseReleased. now rewrite released_spec. }
  change "Input.dispatchMouseEvent"%string with dispatch.
  rewrite Ep. clear Ep p. split; [|split].
  - rewrite UpE_unfold. cbv zeta. now destruct (Call tr dispatch _).
  - rewrite UpE_unfold. cbv zeta. now destruct (Call tr dispatch _).
  - intros m' tr' H. rewrite (UpE_success _ _ _ _ _ _ H).
    cbn [buttons set_buttons].
    split; [apply released_spec|]. split; [apply released_not_In|].
    split.
    + intros c Hc. rewrite released_spec, filter_In. split.
      * now intros [Hin _].
      * intros Hin. split; [exact Hin|].
        destruct (String.eqb_spec c b) as [E|_]; [contradiction|reflexivity].
    + split; [apply released_absent|].
      intros clicks' m'' tr'' H2. apply UpE_success in H2.
      rewrite H2. cbn [buttons set_buttons]. apply released_idem.
Qed.

End Properties.

Ltac int64_range := vm_compute; split; intro; discriminate.

Lemma MoveE_lands_witness :
  exists m3 m1 m5 : Mouse,
    (snd (fst (Mouse.MoveE string (accept string) encode_none
                 origin 10 7 3 [])) = m3 /\
     Z.abs (10 - x m3) < 3 /\ Z.abs (7 - y m3) < 3) /\
    (snd (fst (Mouse.MoveE string (accept string) encode_none
                 origin 10 7 1 [])) = m1 /\
     x m1 = 10 /\ y m1 = 7) /\
    (snd (fst (Mouse.MoveE string (accept string) encode_none
                 origin 10 (-15) 5 [])) = m5 /\
     x m5 = 10 /\ y m5 = -15) /\
    Mouse.MoveE string (accept string) encode_none origin 10 7 0 [] =
      Mouse.MoveE string (accept string) encode_none origin 10 7 1 [].
Proof.
  pose (run := fun x' y' steps =>
          Mouse.MoveE string (accept string) encode_none origin x' y' steps []).
  exists (snd (fst (run 10 7 3))), (snd (fst (run 10 7 1))),
         (snd (fst (run 10 (-15) 5))).
  split; [|split; [|split]].
  - destruct (MoveE_lands string (accept string) encode_none origin 10 7 3 [])
      as [_ H].
    destruct (H (snd (fst (run 10 7 3))) (snd (run 10 7 3)))
      as (_ & _ & _ & _ & _ & _ & Hx & Hy);
      [int64_range | int64_range | int64_range | int64_range | reflexivity |].
    split; [reflexivity|]. split.
    + apply Hx. simpl. int64_range.
    + apply Hy. simpl. int64_range.
  - destruct (MoveE_lands string (accept string) encode_none origin 10 7 1 [])
      as [_ H].
    destruct (H (snd (fst (run 10 7 1))) (snd (run 10 7 1)))
      as (_ & _ & _ & H1 & _);
      [int64_range | int64_range | int64_range | int64_range | reflexivity |].
    split; [reflexivity|]. apply H1. reflexivity.
  - destruct (MoveE_lands string (accept string) encode_none origin 10 (-15)
                5 []) as [_ H].
    destruct (H (snd (fst (run 10 (-15) 5))) (snd (run 10 (-15) 5)))
      as (_ & _ & _ & _ & Hx & Hy & _);
      [int64_range | int64_range | int64_range | int64_range | reflexivity |].
    split; [reflexivity|]. split; [apply Hx | apply Hy]; reflexivity.
  - destruct (MoveE_lands string (accept string) encode_none origin 10 7 0 [])
      as [H _].
    apply H. lia.
Defined.

(** C1 as stated fails when [target - current] overflows: from [x = -2] a
    move to the largest [int64] in two steps has an odd difference, every
    event is accepted, and the mouse ends at the smallest [int64],
    [2^64 - 1] units from the target. *)
Lemma MoveE_overflow_far_from_target :
  let start :=
    {| page := {| Keyboard_modifiers := 0 |}; x := -2; y := 0;
       buttons := [] |} in
  exists m' tr',
    in_range (x start) /\ in_range max_int /\
    Z.rem (max_int - x start) 2 <> 0 /\
    Mouse.MoveE string (accept string) encode_none start max_int 0 2 []
      = (None, m', tr') /\
    x m' = min_int /\
    ~ Z.abs (max_int - x m') < 2.
Proof.
  cbv zeta. eexists. eexists.
  split; [simpl; int64_range|]. split; [int64_range|].
  split; [vm_compute; discriminate|].
  split; [vm_compute; reflexivity|].
  split; [reflexivity|].
  vm_compute. discriminate.
Qed.

Lemma Down_appends_Up_removes_all_witness :
  let Down := Mouse.Down string (accept string) encode_none in
  let Up := Mouse.Up string (accept string) encode_none in
  let press b bs := (dispatch, mousePressed (set_buttons origin bs) b 0 1) in
  let release b bs := (dispatch, mouseReleased (set_buttons origin bs) b 0 1) in
  let l := "left"%string in
  let r := "right"%string in
  (exists m1 tr1 m2 tr2,
     Down origin l [] = (None, m1, tr1) /\
     Up m1 l tr1 = (None, m2, tr2) /\
     buttons m1 = [l] /\ buttons m2 = []) /\
  (exists m1 tr1 m2 tr2 m3 tr3,
     Down origin l [] = (None, m1, tr1) /\
     Down m1 r tr1 = (None, m2, tr2) /\
     Up m2 l tr2 = (None, m3, tr3) /\
     buttons m3 = [r]) /\
  (exists m1 tr1 m2 tr2 m3 tr3,
     Down origin l [] = (None, m1, tr1) /\
     Down m1 l tr1 = (None, m2, tr2) /\
     Up m2 l tr2 = (None, m3, tr3) /\
     buttons m2 = [l; l] /\
     buttons m3 = filter (fun btn => negb (String.eqb btn l)) (buttons m2) /\
     buttons m3 = []).
Proof.
  intros Down Up press release l r.
  destruct (Down_appends_Up_removes_all string (accept string) encode_none)
    as (Hd & Hu & H1 & H2 & H3).
  split; [|split].
  - exists (set_buttons origin [l]), [press l []],
           (set_buttons origin []), [press l []; release l [l]].
    split; [reflexivity|]. split; [reflexivity|]. split.
    + apply (Hd origin l 1 [] _ [press l []]). reflexivity.
    + apply (H1 origin [] (set_buttons origin [l]) [press l []] _
               [press l []; release l [l]]); reflexivity.
  - exists (set_buttons origin [l]), [press l []],
           (set_buttons origin [l; r]), [press l []; press r [l]],
           (set_buttons origin [r]),
           [press l []; press r [l]; release l [l; r]].
    split; [reflexivity|]. split; [reflexivity|]. split; [reflexivity|].
    apply (H2 origin [] (set_buttons origin [l]) [press l []]
             (set_buttons origin [l; r]) [press l []; press r [l]] _
             [press l []; press r [l]; release l [l; r]]); reflexivity.
  - exists (set_buttons origin [l]), [press l []],
           (set_buttons origin [l; l]), [press l []; press l [l]],
           (set_buttons origin []),
           [press l []; press l [l]; release l [l; l]].
    split; [reflexivity|]. split; [reflexivity|]. split; [reflexivity|].
    assert (H := H3 origin [] (set_buttons origin [l]) [press l []]
                   (set_buttons origin [l; l]) [press l []; press l [l]]
                   (set_buttons origin [])
                   [press l []; press l [l]; release l [l; l]]
                   eq_refl eq_refl eq_refl eq_refl).
    split; [apply H|]. split; [|apply H].
    apply (Hu (set_buttons origin [l; l]) l 1 [press l []; press l [l]] _
             [press l []; press l [l]; release l [l; l]]).
    reflexivity.
Defined.

Lemma commit_after_dispatch_witness :
  (exists k : nat,
     (k <= 4)%nat /\
     x (at_step 10 0 k origin) = wrap (0 + Z.of_nat k * 10)) /\
  Mouse.DownE string (reject_after 0) encode_none origin "left" 1 [] =
    (Some "closed"%string, origin,
     [(dispatch, mousePressed origin "left" 0 1)]) /\
  Mouse.DownE string (reject_after 1) encode_none origin "left" 1 [] =
    (None, set_buttons origin ["left"%string],
     [(dispatch, mousePressed origin "left" 0 1)]) /\
  Mouse.UpE string (reject_after 0) encode_none
    (set_buttons origin ["left"%string]) "left" 1 [] =
    (Some "closed"%string, set_buttons origin ["left"%string],
     [(dispatch, mouseReleased origin "left" 0 1)]) /\
  Mouse.UpE string (reject_after 1) encode_none
    (set_buttons origin ["left"%string]) "left" 1 [] =
    (None, origin, [(dispatch, mouseReleased origin "left" 0 1)]).
Proof.
  split; [|split; [|split; [|split]]].
  - destruct (commit_after_dispatch string (reject_after 2) encode_none
                origin []) as (Hm & _ & _).
    destruct (Hm 40 0 4) as (k & Hk & _ & _ & Hxy & _).
    exists k. split; [exact Hk|].
    apply Hxy; simpl; int64_range.
  - destruct (commit_after_dispatch string (reject_after 0) encode_none
                origin []) as (_ & Hd & _).
    destruct (Hd "left"%string 1) as [Hfail _].
    apply (Hfail "closed"%string). reflexivity.
  - destruct (commit_after_dispatch string (reject_after 1) encode_none
                origin []) as (_ & Hd & _).
    destruct (Hd "left"%string 1) as [_ Hok].
    apply Hok. reflexivity.
  - destruct (commit_after_dispatch string (reject_after 0) encode_none
                (set_buttons origin ["left"%string]) []) as (_ & _ & Hu).
    destruct (Hu "left"%string 1) as [Hfail _].
    apply (Hfail "closed"%string). reflexivity.
  - destruct (commit_after_dispatch string (reject_after 1) encode_none
                (set_buttons origin ["left"%string]) []) as (_ & _ & Hu).
    destruct (Hu "left"%string 1) as [_ Hok].
    apply Hok. reflexivity.
Defined.

Lemma ClickE_no_rollback_witness :
  let press := (dispatch, mousePressed origin "left" 0 1) in
  let held := set_buttons origin ["left"%string] in
  let release := (dispatch, mouseReleased held "left" 0 1) in
  Mouse.ClickE string (reject_after 0) encode_none origin EmptyString [] =
    (Some "closed"%string, origin, [press]) /\
  (Mouse.ClickE string (reject_after 1) encode_none origin EmptyString [] =
     (Some "closed"%string, held, [press; release]) /\
   In "left"%string (buttons held)) /\
  Mouse.ClickE string (reject_after 2) encode_none origin "left" [] =
    (None, origin, [press; release]).
Proof.
  cbv zeta. split; [|split].
  - destruct (ClickE_no_rollback string (reject_after 0) encode_none
                origin EmptyString []) as (H & _ & _).
    apply (H "closed"%string). reflexivity.
  - destruct (ClickE_no_rollback string (reject_after 1) encode_none
                origin EmptyString []) as (_ & H & _).
    apply (H "closed"%string); reflexivity.
  - destruct (ClickE_no_rollback string (reject_after 2) encode_none
                origin "left"%string []) as (_ & _ & H).
    apply H; reflexivity.
Defined.

Lemma UpE_idempotent_witness :
  let UpE := Mouse.UpE string (accept string) encode_none in
  let l := "left"%string in
  let r := "right"%string in
  let mid := "middle"%string in
  let held := set_buttons origin [l; r; l] in
  let release b :=
    ("Input.dispatchMouseEvent"%string,
     [ ("type", VString "mouseReleased"); ("button", VString b);
       ("buttons", VInt 0); ("clickCount", VInt 1);
       ("x", VInt 0); ("y", VInt 0) ]%string) in
  (UpE held l 1 [] = (None, set_buttons origin [r], [release l]) /\
   UpE (set_buttons origin [r]) l 1 [release l] =
     (None, set_buttons origin [r], [release l; release l]) /\
   buttons (snd (fst (UpE (set_buttons origin [r]) l 1 [release l]))) = [r] /\
   ~ In l [r] /\ (In r [r] <-> In r [l; r; l])) /\
  (UpE held mid 1 [] = (None, held, [release mid]) /\
   buttons held = [l; r; l]) /\
  (fst (fst (Mouse.UpE string (reject_after 0) encode_none held mid 1 []))
     = Some "closed"%string /\
   snd (Mouse.UpE string (reject_after 0) encode_none held mid 1 [])
     = [release mid]).
Proof.
  intros UpE l r mid held release. split; [|split].
  - destruct (UpE_idempotent string (accept string) encode_none held l 1 [])
      as (_ & _ & H).
    destruct (H (set_buttons origin [r]) [release l] eq_refl)
      as (_ & Hnot & Hkeep & _ & Hidem).
    split; [reflexivity|]. split; [reflexivity|].
    split.
    { apply (Hidem 1 (snd (fst (UpE (set_buttons origin [r]) l 1 [release l])))
               [release l; release l]).
      reflexivity. }
    split; [exact Hnot|].
    apply (Hkeep r). discriminate.
  - destruct (UpE_idempotent string (accept string) encode_none held mid 1 [])
      as (_ & _ & H).
    destruct (H held [release mid] eq_refl) as (_ & _ & _ & Hsame & _).
    split; [reflexivity|].
    apply Hsame. cbn. intros [E|[E|[E|[]]]]; discriminate E.
  - destruct (UpE_idempotent string (reject_after 0) encode_none held mid 1 [])
      as (Herr & Htr & _).
    split; [rewrite Herr; reflexivity | rewrite Htr; reflexivity].
Defined.

End MouseSpec.

(** ** Elements *)

Module ElementSpec.
Import Int64 Element ElementModel WaitModel.

Local Open Scope string_scope.
Local Open Scope list_scope.

Section Properties.

Context {L : Lib} (R : Remote L).

Lemma EvalWithOptions_unfold el opts tr :
  EvalWithOptions R el opts tr =
    (pageEvalWithOptions R tr (page el) (ctx el) (This opts (ObjectID el)),
     tr ++ [PageEvalWithOptions (page el) (ctx el) (This opts (ObjectID el))]).
Proof. reflexivity. Qed.

(** C3.  [Interactable] asks for the shape first.  An empty shape gives
    the error "element has no visible shape" about the element itself, and
    the shape request is the only one made.  Otherwise the scroll offset
    of the root page is read, the page is asked for the element at the
    centre of the first quad moved by that offset, and the element is asked
    in-page whether it contains the one found: if so the shape is returned
    without error, if not the error names the element found. *)
Theorem Interactable_checks_hit (el : Element) (tr : Trace) :
  let tr1 := tr ++ [DOMGetContentQuads el] in
  let js := "{ x: window.scrollX, y: window.scrollY }"%string in
  let root := Root L (page el) in
  let tr2 := tr1 ++ [PageEval root js] in
  (exists rest, snd (Interactable R el tr) = tr1 ++ rest) /\
  (getContentQuads R tr el = Ok [] ->
   Interactable R el tr =
     (([], Some (newErr ErrNotInteractable el "element has no visible shape")),
      tr1)) /\
  (forall shape0 others scroll elAtPoint res,
     getContentQuads R tr el = Ok (shape0 :: others) ->
     pageEval R tr1 root js = Ok scroll ->
     let px :=
       add (int64_of L (CenterX L shape0)) (Int L (Get L scroll "x")) in
     let py :=
       add (int64_of L (CenterY L shape0)) (Int L (Get L scroll "y")) in
     let tr3 := tr2 ++ [PageElementFromPoint (page el) px py] in
     let opts :=
       This (jsHelper L (js_ContainsElement L) [ObjectID elAtPoint])
         (ObjectID el) in
     pageElementFromPoint R tr2 (page el) px py = Ok elAtPoint ->
     pageEvalWithOptions R tr3 (page el) (ctx el) opts = Ok res ->
     Interactable R el tr =
       ((shape0 :: others,
         if Bool L res then None
         else Some (newErr ErrNotInteractable elAtPoint
                      "another element covers current one")),
        tr3 ++ [PageEvalWithOptions (page el) (ctx el) opts])).
Proof.
  intros tr1 js root tr2. unfold Interactable, Shape. fold tr1.
  split; [|split].
  - destruct (getContentQuads R tr el) as [[|shape0 others]|err];
      try (exists []; cbn [snd]; now rewrite app_nil_r).
    fold js root. destruct (pageEval R tr1 root js) as [scroll|err];
      [|eexists; cbn [snd]; reflexivity].
    fold tr2.
    destruct (pageElementFromPoint R tr2 (page el) _ _) as [elAtPoint|err];
      [|eexists; cbn [snd]; unfold tr2; rewrite <- app_assoc; reflexivity].
    unfold ContainsElement. rewrite EvalWithOptions_unfold.
    destruct (pageEvalWithOptions R _ _ _ _) as [res|err];
      [destruct (Bool L res)|];
      eexists; cbn [snd]; unfold tr2; rewrite <- !app_assoc; reflexivity.
  - intros ->. reflexivity.
  - intros shape0 others scroll elAtPoint res -> Hscroll Hhit Hcontains.
    unfold tr2, root, js in *. rewrite Hscroll. cbv zeta. rewrite Hhit.
    unfold ContainsElement. rewrite EvalWithOptions_unfold, Hcontains.
    now destruct (Bool L res).
Qed.

(** C10.  [Remove] evaluates [this.remove()] on the element.  If that
    fails, the error is returned and the evaluation is the only request
    made: nothing is released.  If it succeeds, [Release] is called next
    and its answer is returned. *)
Theorem Remove_releases_after_removal (el : Element) (tr : Trace) :
  let opts := This (NewEvalOptions "this.remove()" []) (ObjectID el) in
  let removal := PageEvalWithOptions (page el) (ctx el) opts in
  let release := PageRelease (page el) (ctx el) (ObjectID el) in
  (forall err,
     pageEvalWithOptions R tr (page el) (ctx el) opts = Fail err ->
     Remove R el tr = (Some err, tr ++ [removal]) /\
     ~ In release [removal]) /\
  (forall res,
     pageEvalWithOptions R tr (page el) (ctx el) opts = Ok res ->
     Remove R el tr = Release R el (tr ++ [removal]) /\
     Remove R el tr =
       (pageRelease R (tr ++ [removal]) (page el) (ctx el) (ObjectID el),
        tr ++ [removal; release])).
Proof.
  intros opts removal release. unfold Remove, Eval.
  rewrite EvalWithOptions_unfold. fold opts removal. split.
  - intros err ->. split; [reflexivity|]. intros [H|[]]. discriminate H.
  - intros res ->. split; [reflexivity|]. unfold Release. fold release.
    now rewrite <- app_assoc.
Qed.

End Properties.

Lemma Interactable_checks_hit_witness :
  let shape_req := DOMGetContentQuads button_el in
  let scroll_req :=
    PageEval main_page "{ x: window.scrollX, y: window.scrollY }" in
  let hit_req := PageElementFromPoint main_page 8 50 in
  let contains_req other :=
    PageEvalWithOptions main_page O
      {| JS := "containsElement"; JSArgs := [other]; ThisID := "button";
         byUser := false |} in
  Interactable (still [] modal_el (Ok (JBool true))) button_el [] =
    (([], Some (Error_ ErrNotInteractable button_el
                  "element has no visible shape")),
     [shape_req]) /\
  Interactable (still [square] modal_el (Ok (JBool false))) button_el [] =
    (([square], Some (Error_ ErrNotInteractable modal_el
                        "another element covers current one")),
     [shape_req; scroll_req; hit_req; contains_req "modal"%string]) /\
  Interactable (still [square] button_el (Ok (JBool true))) button_el [] =
    (([square], None),
     [shape_req; scroll_req; hit_req; contains_req "button"%string]).
Proof.
  cbv zeta. split; [|split].
  - destruct (Interactable_checks_hit
                (still [] modal_el (Ok (JBool true))) button_el [])
      as (_ & H & _).
    apply H. reflexivity.
  - destruct (Interactable_checks_hit
                (still [square] modal_el (Ok (JBool false))) button_el [])
      as (_ & _ & H).
    apply (H square [] (JPoint 3 40) modal_el (JBool false)); reflexivity.
  - destruct (Interactable_checks_hit
                (still [square] button_el (Ok (JBool true))) button_el [])
      as (_ & _ & H).
    apply (H square [] (JPoint 3 40) button_el (JBool true)); reflexivity.
Defined.

Lemma Remove_releases_after_removal_witness :
  let removal :=
    PageEvalWithOptions main_page O
      {| JS := "this.remove()"; JSArgs := []; ThisID := "button";
         byUser := false |} in
  Remove (still [] modal_el (Fail (Failure "detached"))) button_el [] =
    (Some (Failure "detached"), [removal]) /\
  Remove (still [] modal_el (Ok JNull)) button_el [] =
    (None, [removal; PageRelease main_page O "button"]).
Proof.
  cbv zeta. split.
  - destruct (Remove_releases_after_removal
                (still [] modal_el (Fail (Failure "detached"))) button_el [])
      as (H & _).
    apply (H (Failure "detached")). reflexivity.
  - destruct (Remove_releases_after_removal
                (still [] modal_el (Ok JNull)) button_el [])
      as (_ & H).
    apply (H JNull). reflexivity.
Defined.

(** *** WaitStable *)

Section Stability.

Context {L : Lib} (R : Remote L).
Variable el : Element.

Abbreviation round := (ElementModel.round el).
Abbreviation rounds := (ElementModel.rounds el).
Abbreviation differing := (ElementModel.differing R el).
Abbreviation visible_options := (WaitModel.visible_options (L:=L) el).
Abbreviation visible_check := (WaitModel.visible_check (L:=L) el).
Abbreviation poll := (WaitModel.poll (L:=L) el).
Abbreviation polls := (WaitModel.polls (L:=L) el).
Abbreviation not_yet := (WaitModel.not_yet R el).
Abbreviation saw_visible := (WaitModel.saw_visible R el).
Abbreviation ticker_law := (WaitModel.ticker_law R el).
Abbreviation previous_wait := (WaitModel.previous_wait el).

(** More fuel does not change what a wait returned. *)
Lemma Retry_more_fuel fuel :
  forall c fn tr result extra,
    Retry R fuel c fn tr = Some result ->
    Retry R (fuel + extra) c fn tr = Some result.
Proof.
  induction fuel as [|fuel IH]; intros c fn tr result extra H;
    [discriminate|].
  cbn [Nat.add Retry] in *.
  destruct (fn tr) as [[[|] err] tr1]; [exact H|].
  destruct (sleeper R tr1 c); [exact H|]. now apply IH.
Qed.

Lemma WaitVisible_more_fuel fuel tr result extra :
  WaitVisible R fuel el tr = Some result ->
  WaitVisible R (fuel + extra) el tr = Some result.
Proof. apply Retry_more_fuel. Qed.

Lemma differing_tail smp tr k :
  differing smp tr (S k) ->
  differing (fun j => smp (S j)) (tr ++ round) k.
Proof. intros H j Hj. apply (H (S j)). lia. Qed.

Lemma stable_loop_round fuel shape tr current :
  selected R tr (ctx el) = Tick ->
  getContentQuads R (tr ++ [Select (ctx el)]) el = Ok current ->
  stable_loop R (S fuel) el shape tr =
    if DeepEqual L shape current then Some (None, tr ++ round)
    else stable_loop R fuel el current (tr ++ round).
Proof.
  intros Hs Hq. cbn [stable_loop]. rewrite Hs. unfold Shape. rewrite Hq.
  unfold round. now rewrite <- app_assoc.
Qed.

(** While the samples differ the loop goes on. *)
Lemma stable_loop_differing smp k :
  forall tr fuel,
    differing smp tr k ->
    stable_loop R (k + fuel) el (smp O) tr =
      stable_loop R fuel el (smp k) (rounds tr k).
Proof.
  revert smp. induction k as [|k IH]; intros smp tr fuel H; [reflexivity|].
  destruct (H O ltac:(lia)) as (Hs & Hq & Hd). cbn [rounds] in Hs, Hq.
  cbn [Nat.add]. rewrite (stable_loop_round _ _ _ _ Hs Hq), Hd.
  apply (IH (fun j => smp (S j))). now apply differing_tail.
Qed.

Lemma stable_loop_starved smp fuel :
  forall k tr,
    differing smp tr k -> (fuel <= k)%nat ->
    stable_loop R fuel el (smp O) tr = None.
Proof.
  revert smp. induction fuel as [|fuel IH]; intros smp k tr H Hle;
    [reflexivity|].
  destruct k as [|k]; [lia|].
  destruct (H O ltac:(lia)) as (Hs & Hq & Hd). cbn [rounds] in Hs, Hq.
  rewrite (stable_loop_round _ _ _ _ Hs Hq), Hd.
  apply (IH (fun j => smp (S j)) k); [now apply differing_tail | lia].
Qed.

(** A successful loop saw differing samples and then two equal ones. *)
Lemma stable_loop_success fuel :
  forall shape tr tr',
    stable_loop R fuel el shape tr = Some (None, tr') ->
    exists smp k current,
      smp O = shape /\ (k < fuel)%nat /\ differing smp tr k /\
      selected R (rounds tr k) (ctx el) = Tick /\
      getContentQuads R (rounds tr k ++ [Select (ctx el)]) el = Ok current /\
      DeepEqual L (smp k) current = true /\
      tr' = rounds tr (S k).
Proof.
  induction fuel as [|fuel IH]; intros shape tr tr' H; [discriminate|].
  cbn [stable_loop] in H.
  destruct (selected R tr (ctx el)) eqn:Hs; [|discriminate].
  unfold Shape in H.
  destruct (getContentQuads R (tr ++ [Select (ctx el)]) el) as [current|err]
    eqn:Hq; [|discriminate].
  destruct (DeepEqual L shape current) eqn:Hd.
  - exists (fun _ => shape), O, current.
    split; [reflexivity|]. split; [lia|]. split; [intros j Hj; lia|].
    cbn [rounds]. repeat split; try assumption.
    inversion H. unfold round. now rewrite <- app_assoc.
  - rewrite <- app_assoc in H. apply IH in H.
    destruct H as (smp & k & cur & E0 & Hk & Hdiff & Hs' & Hq' & Hd' & E).
    exists (fun j => match j with O => shape | S j' => smp j' end), (S k), cur.
    split; [reflexivity|]. split; [lia|]. split.
    + intros [|j] Hj.
      * cbn [rounds]. rewrite E0. now repeat split.
      * apply (Hdiff j). lia.
    + cbn [rounds]. now repeat split.
Qed.

Lemma WaitVisible_S fuel tr :
  WaitVisible R (S fuel) el tr =
    match pageEvalWithOptions R tr (page el) (ctx el) visible_options with
    | Fail err => Some (Some err, tr ++ [visible_check])
    | Ok res =>
        if Bool L res then Some (None, tr ++ [visible_check])
        else
          match sleeper R (tr ++ [visible_check]) (ctx el) with
          | Some err => Some (Some err, tr ++ poll)
          | None => WaitVisible R fuel el (tr ++ poll)
          end
    end.
Proof.
  unfold WaitVisible, Wait. cbn [Retry]. unfold Eval.
  rewrite EvalWithOptions_unfold.
  change (This (NewEvalOptions (JS (jsHelper L (js_Visible L) []))
                  (JSArgs (jsHelper L (js_Visible L) []))) (ObjectID el))
    with visible_options.
  change (PageEvalWithOptions (page el) (ctx el) visible_options)
    with visible_check.
  destruct (pageEvalWithOptions R tr (page el) (ctx el) visible_options)
    as [res|err]; [|reflexivity].
  destruct (Bool L res); [reflexivity|].
  unfold WaitModel.poll. rewrite <- app_assoc. reflexivity.
Qed.

(** A wait for visibility that returned [nil] ended with the check
    answering true. *)
Lemma WaitVisible_nil_saw_visible fuel :
  forall tr tr1,
    WaitVisible R fuel el tr = Some (None, tr1) -> saw_visible tr tr1.
Proof.
  induction fuel as [|fuel IH]; intros tr tr1 H; [discriminate|].
  rewrite WaitVisible_S in H.
  destruct (pageEvalWithOptions R tr (page el) (ctx el) visible_options)
    as [res|err] eqn:He; [|discriminate].
  destruct (Bool L res) eqn:Hb.
  - inversion H. exists O, res. cbn [WaitModel.polls].
    split; [reflexivity|]. split; [exact He|]. split; [exact Hb|].
    intros i Hi. lia.
  - destruct (sleeper R (tr ++ [visible_check]) (ctx el)) eqn:Hsl;
      [discriminate|].
    apply IH in H. destruct H as (j & res' & E & He' & Hb' & Hbefore).
    exists (S j), res'. cbn [WaitModel.polls].
    split; [exact E|]. split; [exact He'|]. split; [exact Hb'|].
    intros [|i] Hi.
    + cbn [WaitModel.polls]. split; [exists res; now split | exact Hsl].
    + apply (Hbefore i). lia.
Qed.

(** While the check does not answer true the wait polls again. *)
Lemma WaitVisible_polls j :
  forall tr fuel,
    (forall i, (i < j)%nat -> not_yet (polls tr i)) ->
    WaitVisible R (j + fuel) el tr = WaitVisible R fuel el (polls tr j).
Proof.
  induction j as [|j IH]; intros tr fuel H; [reflexivity|].
  destruct (H O ltac:(lia)) as [(res & He & Hb) Hsl].
  cbn [WaitModel.polls] in He, Hsl.
  cbn [Nat.add]. rewrite WaitVisible_S, He, Hb, Hsl.
  cbn [WaitModel.polls]. apply IH.
  intros i Hi. apply (H (S i)). lia.
Qed.

Lemma rounds_snoc j :
  forall tr, rounds tr (S j) = rounds tr j ++ round.
Proof.
  induction j as [|j IH]; intros tr; [reflexivity|].
  change (rounds tr (S (S j))) with (rounds (tr ++ round) (S j)).
  rewrite IH. reflexivity.
Qed.

Lemma period_of_rounds t d j :
  period_of (rounds (t ++ [NewTicker d]) j) = Some d.
Proof.
  unfold period_of. induction j as [|j IH].
  - cbn [ElementModel.rounds]. rewrite rev_app_distr. reflexivity.
  - rewrite rounds_snoc. unfold ElementModel.round.
    rewrite rev_app_distr. cbn [rev app period_back]. exact IH.
Qed.

Lemma last_wait_rounds t d j :
  last_wait (rounds (t ++ [NewTicker d]) j)
    = previous_wait (t ++ [NewTicker d]) j.
Proof.
  unfold last_wait. destruct j as [|j].
  - cbn [ElementModel.rounds WaitModel.previous_wait].
    rewrite rev_app_distr. cbn [rev app back_to_wait is_wait].
    now rewrite rev_involutive.
  - rewrite rounds_snoc. unfold ElementModel.round.
    rewrite rev_app_distr. cbn [rev app back_to_wait is_wait].
    cbn [WaitModel.previous_wait]. now rewrite rev_involutive.
Qed.

(** Under the law of the ticker, the tick of each round is at least one
    period after the wait before it. *)
Lemma ticks_apart stamp t d j :
  ticker_law stamp ->
  selected R (rounds (t ++ [NewTicker d]) j) (ctx el) = Tick ->
  stamp (rounds (t ++ [NewTicker d]) j ++ [Select (ctx el)])
    >= stamp (previous_wait (t ++ [NewTicker d]) j) + d.
Proof.
  intros Hlaw Hs. rewrite <- last_wait_rounds.
  apply Hlaw; [exact Hs | apply period_of_rounds].
Qed.

(** C7.  [WaitStable] first waits until the element is visible: it polls
    the visibility check with the handle's sleeper, returns the error of
    that wait, and goes on only after the check answered true.  It then
    takes a sample, creates one ticker with the given interval, and in each
    round waits on the [select] once and samples once, with no sleeper in
    between.  An error of any sample is returned at once.  While each
    sample differs from the one before it does not return; the scope's
    error is returned when the [select] reports the scope done; and [nil]
    is returned exactly when a sample equals the one taken a tick before.
    By the law of the ticker, the tick before each sample of the loop is
    at least [interval] later than the tick (for the first round: the
    creation of the ticker, which follows the first sample) before it. *)
Theorem WaitStable_until_two_equal_samples (fuel : nat) (interval : Z)
    (tr : Trace) :
  (WaitVisible R fuel el tr = None ->
   WaitStable R fuel el interval tr = None) /\
  (forall err tr1,
     WaitVisible R fuel el tr = Some (Some err, tr1) ->
     WaitStable R fuel el interval tr = Some (Returned (Some err), tr1)) /\
  (forall tr1,
     WaitVisible R fuel el tr = Some (None, tr1) ->
     (forall err,
        getContentQuads R tr1 el = Fail err ->
        WaitStable R fuel el interval tr =
          Some (Returned (Some err), tr1 ++ [DOMGetContentQuads el])) /\
     (forall smp k,
        0 < interval ->
        getContentQuads R tr1 el = Ok (smp O) ->
        let tr0 := tr1 ++ [DOMGetContentQuads el; NewTicker interval] in
        let here := rounds tr0 k in
        differing smp tr0 k ->
        ((fuel <= k)%nat -> WaitStable R fuel el interval tr = None) /\
        ((k < fuel)%nat ->
         (forall err,
            selected R here (ctx el) = Done err ->
            WaitStable R fuel el interval tr =
              Some (Returned (Some err),
                    here ++ [Select (ctx el); TickerStop])) /\
         (forall err,
            selected R here (ctx el) = Tick ->
            getContentQuads R (here ++ [Select (ctx el)]) el = Fail err ->
            WaitStable R fuel el interval tr =
              Some (Returned (Some err), here ++ round ++ [TickerStop])) /\
         (forall current,
            selected R here (ctx el) = Tick ->
            getContentQuads R (here ++ [Select (ctx el)]) el = Ok current ->
            DeepEqual L (smp k) current = true ->
            WaitStable R fuel el interval tr =
              Some (Returned None, here ++ round ++ [TickerStop]))))) /\
  (forall tr',
     WaitStable R fuel el interval tr = Some (Returned None, tr') ->
     exists tr1 smp k current,
       let tr0 := tr1 ++ [DOMGetContentQuads el; NewTicker interval] in
       WaitVisible R fuel el tr = Some (None, tr1) /\
       0 < interval /\
       getContentQuads R tr1 el = Ok (smp O) /\
       differing smp tr0 k /\
       selected R (rounds tr0 k) (ctx el) = Tick /\
       getContentQuads R (rounds tr0 k ++ [Select (ctx el)]) el
         = Ok current /\
       DeepEqual L (smp k) current = true /\
       tr' = rounds tr0 k ++ round ++ [TickerStop] /\
       saw_visible tr tr1 /\
       (forall stamp,
          ticker_law stamp ->
          forall j, (j <= k)%nat ->
            stamp (rounds tr0 j ++ [Select (ctx el)])
              >= stamp (previous_wait tr0 j) + interval)) /\
  (forall tr1,
     WaitVisible R fuel el tr = Some (None, tr1) -> saw_visible tr tr1) /\
  (forall j res,
     (forall i, (i < j)%nat -> not_yet (polls tr i)) ->
     pageEvalWithOptions R (polls tr j) (page el) (ctx el) visible_options
       = Ok res ->
     Bool L res = true ->
     (j < fuel)%nat ->
     WaitVisible R fuel el tr = Some (None, polls tr j ++ [visible_check])).
Proof.
  split; [|split; [|split; [|split; [|split]]]];
    [| | | |apply WaitVisible_nil_saw_visible| ]; unfold WaitStable;
    cycle 4.
  { intros j res Hpolls He Hb Hj.
    replace fuel with (j + S (fuel - S j))%nat by lia.
    rewrite (WaitVisible_polls j tr _ Hpolls), WaitVisible_S, He, Hb.
    reflexivity. }
  - intros ->. reflexivity.
  - intros err tr1 ->. reflexivity.
  - intros tr1 Hv. rewrite Hv. unfold Shape. split.
    + intros err ->. reflexivity.
    + intros smp k Hpos Hq Hdiff. rewrite Hq.
      set (tr0 := tr1 ++ [DOMGetContentQuads el; NewTicker interval]) in *.
      set (here := rounds tr0 k).
      destruct (Z.leb_spec interval 0) as [Hle|_]; [lia|].
      replace ((tr1 ++ [DOMGetContentQuads el]) ++ [NewTicker interval])
        with tr0 by (unfold tr0; now rewrite <- app_assoc).
      split.
      * intros Hfuel.
        now rewrite (stable_loop_starved smp fuel k tr0 Hdiff Hfuel).
      * intros Hfuel.
        replace fuel with (k + S (fuel - S k))%nat by lia.
        rewrite (stable_loop_differing smp k tr0 _ Hdiff). fold here.
        cbn [stable_loop]. unfold Shape. split; [|split].
        -- intros err ->. now rewrite <- app_assoc.
        -- intros err -> ->. unfold round.
           now rewrite <- !app_assoc.
        -- intros current -> -> ->. unfold round.
           now rewrite <- !app_assoc.
  - intros tr' H.
    destruct (WaitVisible R fuel el tr) as [[[err|] tr1]|] eqn:Hv;
      try discriminate.
    unfold Shape in H.
    destruct (getContentQuads R tr1 el) as [shape|err] eqn:Hq;
      [|discriminate].
    destruct (Z.leb_spec interval 0) as [Hle|Hpos]; [discriminate|].
    rewrite <- app_assoc in H. cbn [app] in H.
    destruct (stable_loop R fuel el shape _) as [[err tr3]|] eqn:Hloop;
      [|discriminate].
    inversion H; subst err tr'. clear H.
    apply stable_loop_success in Hloop.
    destruct Hloop as (smp & k & cur & E0 & Hk & Hdiff & Hs & Hq' & Hd & E).
    exists tr1, smp, k, cur. cbv zeta.
    split; [reflexivity|]. split; [exact Hpos|].
    split; [now rewrite E0|]. split; [exact Hdiff|].
    split; [exact Hs|]. split; [exact Hq'|]. split; [exact Hd|].
    split; [rewrite E, rounds_snoc; now rewrite <- app_assoc|].
    split; [now apply (WaitVisible_nil_saw_visible fuel)|].
    intros stamp Hlaw j Hj.
    change [DOMGetContentQuads el; NewTicker interval]
      with ([DOMGetContentQuads el] ++ [NewTicker interval]) in *.
    rewrite app_assoc in *.
    apply ticks_apart; [exact Hlaw|].
    destruct (Nat.eq_dec j k) as [->|Hne]; [exact Hs|].
    apply (Hdiff j). lia.
Qed.

End Stability.

Lemma stamp_back_to_wait rh : stamp_back (back_to_wait rh) = stamp_back rh.
Proof.
  induction rh as [|ev rh IH]; [reflexivity|].
  destruct ev; cbn [back_to_wait is_wait stamp_back]; auto.
Qed.

(** The clock of the examples keeps the law of the ticker. *)
Lemma on_time_keeps_the_law {L : Lib} (R : Remote L) (el : Element) :
  ticker_law R el on_time.
Proof.
  intros h d _ Hp. unfold on_time, last_wait. unfold period_of in Hp.
  rewrite rev_app_distr, rev_involutive, stamp_back_to_wait.
  cbn [rev app stamp_back]. rewrite Hp. lia.
Qed.

Lemma WaitStable_until_two_equal_samples_witness :
  let visible :=
    PageEvalWithOptions main_page O
      {| JS := "visible"; JSArgs := []; ThisID := "button";
         byUser := false |} in
  let sample := DOMGetContentQuads button_el in
  let tick := Select O in
  let canceled := Failure "context canceled" in
  let tr0 := [visible; sample; NewTicker 100] in
  WaitStable (animated 6 100 (Ok (JBool true))) 5 button_el 100 [] =
    Some (Returned None,
          [visible; sample; NewTicker 100; tick; sample; tick; sample;
           tick; sample; TickerStop]) /\
  WaitStable (animated 6 100 (Ok (JBool true))) 2 button_el 100 [] = None /\
  WaitStable (animated 100 6 (Ok (JBool true))) 5 button_el 100 [] =
    Some (Returned (Some canceled),
          [visible; sample; NewTicker 100; tick; sample; tick; sample;
           tick; TickerStop]) /\
  WaitStable (animated 6 100 (Fail (Failure "gone"))) 5 button_el 100 [] =
    Some (Returned (Some (Failure "gone")), [visible]) /\
  (exists smp k current,
     differing (animated 6 100 (Ok (JBool true))) button_el smp tr0 k /\
     DeepEqual lib0 (smp k) current = true /\
     saw_visible (animated 6 100 (Ok (JBool true))) button_el [] [visible] /\
     on_time (rounds button_el tr0 k ++ [tick])
       >= on_time (previous_wait button_el tr0 k) + 100) /\
  saw_visible (lively 4 12 100) button_el []
    [visible; Sleep O; visible; Sleep O; visible] /\
  WaitVisible (lively 4 12 100) 5 button_el [] =
    Some (None, [visible; Sleep O; visible; Sleep O; visible]) /\
  WaitStable (lively 4 12 100) 1 button_el 100 [] = None.
Proof.
  intros visible sample tick canceled tr0.
  pose (smp := fun j : nat =>
          match j with
          | O => [[1]]
          | S O => [[4]]
          | _ => [[6]]
          end : list (DOMQuad lib0)).
  assert (Hdiff : forall R : Remote lib0,
            R = animated 6 100 (Ok (JBool true)) \/
            R = animated 100 6 (Ok (JBool true)) ->
            differing R button_el smp
              ([visible] ++ [sample; NewTicker 100]) 2).
  { intros R [-> | ->] [|[|j]] Hj; try lia; repeat split; reflexivity. }
  assert (Hnot : forall i, (i < 2)%nat ->
            not_yet (lively 4 12 100) button_el (polls (L:=lib0) button_el [] i)).
  { intros [|[|i]] Hi; try lia;
      (split; [eexists; split; reflexivity | reflexivity]). }
  split; [|split; [|split; [|split; [|split; [|split; [|split]]]]]].
  - destruct (WaitStable_until_two_equal_samples
                (animated 6 100 (Ok (JBool true))) button_el 5 100 [])
      as (_ & _ & H & _).
    destruct (H [visible] eq_refl) as [_ H1].
    destruct (H1 smp 2%nat ltac:(lia) eq_refl (Hdiff _ (or_introl eq_refl)))
      as [_ H2].
    destruct (H2 ltac:(lia)) as (_ & _ & H3).
    apply (H3 [[6]]); reflexivity.
  - destruct (WaitStable_until_two_equal_samples
                (animated 6 100 (Ok (JBool true))) button_el 2 100 [])
      as (_ & _ & H & _).
    destruct (H [visible] eq_refl) as [_ H1].
    destruct (H1 smp 2%nat ltac:(lia) eq_refl (Hdiff _ (or_introl eq_refl)))
      as [H2 _].
    apply H2. lia.
  - destruct (WaitStable_until_two_equal_samples
                (animated 100 6 (Ok (JBool true))) button_el 5 100 [])
      as (_ & _ & H & _).
    destruct (H [visible] eq_refl) as [_ H1].
    destruct (H1 smp 2%nat ltac:(lia) eq_refl (Hdiff _ (or_intror eq_refl)))
      as [_ H2].
    destruct (H2 ltac:(lia)) as (H3 & _ & _).
    apply (H3 canceled). reflexivity.
  - destruct (WaitStable_until_two_equal_samples
                (animated 6 100 (Fail (Failure "gone"))) button_el 5 100 [])
      as (_ & H & _).
    apply (H (Failure "gone") [visible]). reflexivity.
  - destruct (WaitStable_until_two_equal_samples
                (animated 6 100 (Ok (JBool true))) button_el 5 100 [])
      as (_ & _ & _ & H & _).
    destruct (H _ eq_refl)
      as (tr1 & smp' & k & cur & Hv & _ & _ & Hd & _ & _ & He & _ & Hsaw
          & Hstamp).
    inversion Hv; subst tr1.
    exists smp', k, cur. split; [exact Hd|]. split; [exact He|].
    split; [exact Hsaw|].
    apply (Hstamp on_time (on_time_keeps_the_law _ _) k). lia.
  - destruct (WaitStable_until_two_equal_samples
                (lively 4 12 100) button_el 5 100 [])
      as (_ & _ & _ & _ & H & _).
    apply H. reflexivity.
  - destruct (WaitStable_until_two_equal_samples
                (lively 4 12 100) button_el 5 100 [])
      as (_ & _ & _ & _ & _ & H).
    apply (H 2%nat (JBool true) Hnot); [reflexivity | reflexivity | lia].
  - destruct (WaitStable_until_two_equal_samples
                (lively 4 12 100) button_el 1 100 [])
      as (H & _).
    apply H. reflexivity.
Defined.

(** *** The search for the owning frame *)

Section Frames.

Context {L : Lib} (R : Remote L).
Variable nodeID : proto.DOMNodeID.

Abbreviation shows := (ElementModel.shows R nodeID).
Abbreviation all_show := (ElementModel.all_show R nodeID).

Lemma scan_app el tr vs ws :
  scan nodeID el tr (vs ++ ws) =
    match scan nodeID el tr vs with
    | (None, el', tr') => scan nodeID el' tr' ws
    | stopped => stopped
    end.
Proof.
  revert el tr. induction vs as [|v vs IH]; intros el tr; cbn [app scan].
  - reflexivity.
  - destruct (verdict v); [apply IH | reflexivity | reflexivity].
Qed.

Lemma scan_passes_misses el tr pre rest :
  Forall missed pre ->
  scan nodeID el tr (pre ++ rest) =
    scan nodeID el (tr ++ flat_map (visit nodeID) pre) rest.
Proof.
  intros H. revert tr. induction H as [|v pre Hv _ IH]; intros tr.
  - cbn. now rewrite app_nil_r.
  - cbn [app scan flat_map]. unfold missed in Hv.
    destruct (verdict v); try contradiction.
    rewrite IH. now rewrite app_assoc.
Qed.

Lemma Frame_unfold f tr :
  Frame R f tr =
    match describeNode R tr f 1 false with
    | Fail err => (Fail err, tr ++ [DOMDescribeNode f 1 false])
    | Ok node => (Ok (child_page f node), tr ++ [DOMDescribeNode f 1 false])
    end.
Proof.
  unfold Frame, Describe. now destruct (describeNode R tr f 1 false).
Qed.

Lemma walk_S fuel pg el tr :
  walk R (S fuel) nodeID pg el tr =
    match pageElements R tr pg "iframe" with
    | Fail err => Some (Some err, el, tr ++ [PageElements pg "iframe"])
    | Ok iframes =>
        range R (walk R fuel nodeID) nodeID iframes el
          (tr ++ [PageElements pg "iframe"])
    end.
Proof. reflexivity. Qed.

(** The loop over the iframes of a page does what [scan] does on the
    document order, given fuel for the deepest nesting. *)
Lemma range_scans n :
  forall vs, (depths vs <= n)%nat -> all_show vs ->
  forall fuel, (n <= fuel)%nat ->
  forall el tr,
    range R (walk R fuel nodeID) nodeID (map iframe_el vs) el tr =
      Some (scan nodeID el tr (document_order vs)).
Proof.
  induction n as [|n IHn].
  - intros [|[f d r l inner] vs] Hd Hs fuel Hf el tr; [reflexivity|].
    cbn [depths fold_right depth] in Hd. lia.
  - induction vs as [|[f d r l inner] vs IHvs]; intros Hd Hs fuel Hf el tr;
      [reflexivity|].
    destruct Hs as [Hv Hs]. cbn [depths fold_right depth] in Hd.
    fold (depths inner) in Hd. fold (depths vs) in Hd.
    cbn [map iframe_el range]. rewrite Frame_unfold.
    cbn [document_order flat_map preorder]. cbn [app scan verdict visit].
    cbn [shows] in Hv. destruct Hv as [Hdesc Hv]. rewrite Hdesc.
    destruct d as [node|err]; [|reflexivity].
    cbv zeta in Hv. destruct Hv as [Hres Hv]. rewrite Hres.
    destruct r as [objID|err]; [|now rewrite <- app_assoc].
    cbv zeta. destruct (negb (String.eqb objID EmptyString));
      [now rewrite <- app_assoc|].
    destruct fuel as [|fuel]; [lia|]. rewrite walk_S.
    destruct l as [err|].
    + rewrite Hv. now rewrite <- !app_assoc.
    + destruct Hv as [Hlist Hinner]. rewrite Hlist.
      fold (all_show inner) in Hinner.
      assert (Hin :
        range R (walk R fuel nodeID) nodeID (map iframe_el inner) el
          ((tr ++ [DOMDescribeNode f 1 false]) ++
             [PageResolveNode (child_page f node) nodeID] ++
             [PageElements (child_page f node) "iframe"])
        = Some (scan nodeID el
                  (tr ++ [DOMDescribeNode f 1 false;
                          PageResolveNode (child_page f node) nodeID;
                          PageElements (child_page f node) "iframe"])
                  (document_order inner))).
      { rewrite (IHn inner ltac:(lia) Hinner fuel ltac:(lia)).
        now rewrite <- !app_assoc. }
      rewrite app_assoc in Hin. rewrite Hin.
      fold (document_order inner). fold (document_order vs).
      rewrite scan_app.
      destruct (scan nodeID el _ (document_order inner))
        as [[[err|] el'] tr']; [reflexivity|].
      apply IHvs; [lia | exact Hs | lia].
Qed.

Lemma walk_scans vs pg el tr fuel :
  pageElements R tr pg "iframe" = Ok (map iframe_el vs) ->
  all_show vs -> (depths vs < fuel)%nat ->
  walk R fuel nodeID pg el tr =
    Some (scan nodeID el (tr ++ [PageElements pg "iframe"])
            (document_order vs)).
Proof.
  intros Hl Hs Hf. destruct fuel as [|fuel]; [lia|]. rewrite walk_S, Hl.
  apply (range_scans (depths vs)); [lia | exact Hs | lia].
Qed.

Lemma visited_app tr1 tr2 : visited (tr1 ++ tr2) = visited tr1 ++ visited tr2.
Proof. unfold visited. apply flat_map_app. Qed.

Lemma visited_visit v :
  match verdict v with
  | Miss p | Hit p _ =>
      visited (visit nodeID v) = [frame_id v] /\ FrameID p = frame_id v
  | Broken _ => True
  end.
Proof.
  destruct v as [f [node|err] [objID|err'] [err''|] inner]; cbn;
    try exact I; destruct (negb (String.eqb objID EmptyString)); cbn;
    try exact I; now split.
Qed.

Lemma visited_misses pre :
  Forall missed pre ->
  visited (flat_map (visit nodeID) pre) = map frame_id pre.
Proof.
  induction 1 as [|v pre Hv _ IH]; [reflexivity|].
  cbn [flat_map map]. rewrite visited_app, IH.
  pose proof (visited_visit v) as E. unfold missed in Hv.
  destruct (verdict v); try contradiction. destruct E as [-> _]. reflexivity.
Qed.

Lemma ensureParentPage_scans el objID tr vs fuel :
  let asked := tr ++ [PageHasElement (page el) objID] in
  pageHasElement R tr (page el) objID = Ok false ->
  pageElements R asked (page el) "iframe" = Ok (map iframe_el vs) ->
  all_show vs -> (depths vs < fuel)%nat ->
  ensureParentPage R fuel el nodeID objID tr =
    Some (settle (scan nodeID el (asked ++ [PageElements (page el) "iframe"])
                    (document_order vs))).
Proof.
  intros asked Hhas Hl Hs Hf. unfold ensureParentPage. rewrite Hhas.
  fold asked. rewrite (walk_scans vs _ _ _ _ Hl Hs Hf).
  destruct (scan nodeID el _ (document_order vs)) as [[[err|] el'] tr'];
    cbn [settle]; [destruct (is_EOF err)|]; reflexivity.
Qed.

Lemma ensureParentPage_found el objID tr vs fuel pre v post p found :
  let asked := tr ++ [PageHasElement (page el) objID] in
  let listed := asked ++ [PageElements (page el) "iframe"] in
  pageHasElement R tr (page el) objID = Ok false ->
  pageElements R asked (page el) "iframe" = Ok (map iframe_el vs) ->
  all_show vs -> (depths vs < fuel)%nat ->
  document_order vs = pre ++ v :: post ->
  Forall missed pre ->
  verdict v = Hit p found ->
  ensureParentPage R fuel el nodeID objID tr =
    Some (None, rebind el p found,
          listed ++ flat_map (visit nodeID) pre ++ visit nodeID v).
Proof.
  intros asked listed Hhas Hl Hs Hf Hord Hpre Hv.
  rewrite (ensureParentPage_scans el objID tr vs fuel Hhas Hl Hs Hf).
  fold asked. fold listed. rewrite Hord.
  rewrite (scan_passes_misses _ _ _ _ Hpre). cbn [scan]. rewrite Hv.
  cbn [settle is_EOF]. now rewrite <- app_assoc.
Qed.

(** X12.  When the page of the handle knows the object,
    [ensureParentPage] asks nothing else and changes nothing.  Otherwise,
    on a finite tree of iframes, it visits them in document order: at the
    first frame that resolves the node it binds the handle to that frame's
    page and object and asks nothing more; an error of any request ends the
    search at that request with the handle unchanged, and an error other
    than [io.EOF] is returned ([io.EOF] comes back as [nil]); when no frame
    resolves the node it returns [nil] and the handle is unchanged. *)
Theorem ensureParentPage_first_match (el : Element)
    (objID : proto.RuntimeRemoteObjectID) (tr : Trace) :
  let asked := tr ++ [PageHasElement (page el) objID] in
  let listed := asked ++ [PageElements (page el) "iframe"] in
  (pageHasElement R tr (page el) objID = Ok true ->
   forall fuel,
     ensureParentPage R fuel el nodeID objID tr = Some (None, el, asked)) /\
  (forall err,
     pageHasElement R tr (page el) objID = Fail err ->
     forall fuel,
       ensureParentPage R fuel el nodeID objID tr
         = Some (Some err, el, asked)) /\
  (pageHasElement R tr (page el) objID = Ok false ->
   (forall err fuel,
      pageElements R asked (page el) "iframe" = Fail err ->
      (0 < fuel)%nat ->
      ensureParentPage R fuel el nodeID objID tr =
        Some (if is_EOF err then None else Some err, el, listed)) /\
   (forall vs fuel,
      pageElements R asked (page el) "iframe" = Ok (map iframe_el vs) ->
      all_show vs ->
      (depths vs < fuel)%nat ->
      (forall pre v post p found,
         document_order vs = pre ++ v :: post ->
         Forall missed pre ->
         verdict v = Hit p found ->
         ensureParentPage R fuel el nodeID objID tr =
           Some (None, rebind el p found,
                 listed ++ flat_map (visit nodeID) pre ++ visit nodeID v)) /\
      (forall pre v post err,
         document_order vs = pre ++ v :: post ->
         Forall missed pre ->
         verdict v = Broken err ->
         ensureParentPage R fuel el nodeID objID tr =
           Some (if is_EOF err then None else Some err, el,
                 listed ++ flat_map (visit nodeID) pre ++ visit nodeID v)) /\
      (Forall missed (document_order vs) ->
       ensureParentPage R fuel el nodeID objID tr =
         Some (None, el,
               listed ++ flat_map (visit nodeID) (document_order vs))))).
Proof.
  intros asked listed. split; [|split; [|split]].
  - intros H fuel. unfold ensureParentPage. now rewrite H.
  - intros err H fuel. unfold ensureParentPage. now rewrite H.
  - intros err fuel Hl Hf. unfold ensureParentPage. rewrite H. fold asked.
    destruct fuel as [|fuel]; [lia|]. rewrite walk_S, Hl.
    now destruct (is_EOF err).
  - intros vs fuel Hl Hs Hf. split; [|split].
    + intros pre v post p found Hord Hpre Hv.
      now apply (ensureParentPage_found el objID tr vs fuel pre v post).
    + rewrite (ensureParentPage_scans el objID tr vs fuel H Hl Hs Hf).
      fold asked. fold listed.
      intros pre v post err -> Hpre Hv.
      rewrite (scan_passes_misses _ _ _ _ Hpre). cbn [scan]. rewrite Hv.
      cbn [settle]. rewrite <- app_assoc. now destruct (is_EOF err).
    + rewrite (ensureParentPage_scans el objID tr vs fuel H Hl Hs Hf).
      fold asked. fold listed. intros Hall.
      rewrite <- (app_nil_r (document_order vs)) at 1.
      rewrite (scan_passes_misses _ _ _ _ Hall). reflexivity.
Qed.

(** C8, as amended.  On a tree of iframes that answers without error and
    where some frame resolves the node, the search binds the handle to the
    first such frame in document order, and the frames it asks are, in this
    order, the frames before that one and that one: an iframe comes before
    the iframes inside it, and these come before its next sibling. *)
Theorem ensureParentPage_document_order (el : Element)
    (objID : proto.RuntimeRemoteObjectID) (tr : Trace)
    (vs pre post : list Iframe) (v : Iframe) (p : Page)
    (found : proto.RuntimeRemoteObjectID) (fuel : nat) :
  pageHasElement R tr (page el) objID = Ok false ->
  pageElements R (tr ++ [PageHasElement (page el) objID]) (page el) "iframe"
    = Ok (map iframe_el vs) ->
  all_show vs ->
  (depths vs < fuel)%nat ->
  document_order vs = pre ++ v :: post ->
  Forall missed pre ->
  verdict v = Hit p found ->
  (exists tr',
     ensureParentPage R fuel el nodeID objID tr
       = Some (None, rebind el p found, tr') /\
     FrameID p = frame_id v /\
     visited tr' = visited tr ++ map frame_id pre ++ [frame_id v]) /\
  (forall f described resolved listed inner rest,
     document_order (mkIframe f described resolved listed inner :: rest) =
       mkIframe f described resolved listed inner
         :: document_order inner ++ document_order rest).
Proof.
  intros Hhas Hl Hs Hf Hord Hpre Hv. split; [|reflexivity].
  eexists. split.
  - apply (ensureParentPage_found el objID tr vs fuel pre v post p found);
      assumption.
  - pose proof (visited_visit v) as E. rewrite Hv in E. destruct E as [E1 E2].
    split; [exact E2|].
    rewrite !visited_app, (visited_misses _ Hpre), E1. cbn [visited flat_map].
    cbn [app]. rewrite !app_nil_r. reflexivity.
Qed.

End Frames.

Ltac show_frames := cbn; repeat split; intros; reflexivity.
Ltac all_missed := repeat (constructor; [exact I|]); constructor.

Lemma ensureParentPage_first_match_witness :
  let pA := frame_page main_page "A" in
  let pB := frame_page main_page "B" in
  let pB1 := frame_page pB "B1" in
  let pB2 := frame_page pB1 "B2" in
  let has := PageHasElement main_page "stale" in
  let list p := PageElements p "iframe" in
  let describe p id := DOMDescribeNode (iframe_on p id) 1 false in
  let resolve p := PageResolveNode p 7 in
  ensureParentPage (still [] modal_el (Ok JNull)) O stale_el 7 "stale" [] =
    Some (None, stale_el, [has]) /\
  ensureParentPage (closing false) 1 stale_el 7 "stale" [] =
    Some (Some (Failure "closed"), stale_el, [has; list main_page]) /\
  ensureParentPage nested 4 stale_el 7 "stale" [] =
    Some (None, rebind stale_el pB2 "node-in-B2",
          [has; list main_page;
           describe main_page "A"; resolve pA; list pA;
           describe pA "A1"; resolve (frame_page pA "A1");
           list (frame_page pA "A1");
           describe main_page "B"; resolve pB; list pB;
           describe pB "B1"; resolve pB1; list pB1;
           describe pB1 "B2"; resolve pB2]) /\
  ensureParentPage (frames lost_in_A1) 4 stale_el 7 "stale" [] =
    Some (Some (Failure "detached"), stale_el,
          [has; list main_page;
           describe main_page "A"; resolve pA; list pA;
           describe pA "A1"; resolve (frame_page pA "A1")]) /\
  ensureParentPage nested 3 (iframe_on pA "stale") 7 "stale" [] =
    Some (None, iframe_on pA "stale",
          [PageHasElement pA "stale"; list pA;
           describe pA "A1"; resolve (frame_page pA "A1");
           list (frame_page pA "A1")]).
Proof.
  intros pA pB pB1 pB2 has list describe resolve.
  split; [|split; [|split; [|split]]].
  - destruct (ensureParentPage_first_match
                (still [] modal_el (Ok JNull)) 7 stale_el "stale" [])
      as (H & _).
    apply H. reflexivity.
  - destruct (ensureParentPage_first_match
                (closing false) 7 stale_el "stale" []) as (_ & _ & H).
    destruct (H eq_refl) as [H1 _].
    apply (H1 (Failure "closed") 1%nat); [reflexivity | lia].
  - destruct (ensureParentPage_first_match nested 7 stale_el "stale" [])
      as (_ & _ & H).
    destruct (H eq_refl) as [_ H1].
    destruct (H1 nested_views 4%nat eq_refl ltac:(show_frames)
                ltac:(cbn; lia)) as (Hfound & _ & _).
    apply (Hfound (removelast (document_order nested_views))
             (view in_B2 pB1 "B2" []) [] pB2 "node-in-B2");
      [reflexivity | cbn; all_missed | reflexivity].
  - destruct (ensureParentPage_first_match (frames lost_in_A1) 7 stale_el
                "stale" []) as (_ & _ & H).
    destruct (H eq_refl) as [_ H1].
    destruct (H1 (views lost_in_A1) 4%nat eq_refl ltac:(show_frames)
                ltac:(cbn; lia)) as (_ & Hbroken & _).
    apply (Hbroken [view lost_in_A1 main_page "A" [view lost_in_A1 pA "A1" []]]
             (view lost_in_A1 pA "A1" [])
             (skipn 2 (document_order (views lost_in_A1)))
             (Failure "detached"));
      [reflexivity | cbn; all_missed | reflexivity].
  - destruct (ensureParentPage_first_match nested 7 (iframe_on pA "stale")
                "stale" []) as (_ & _ & H).
    destruct (H eq_refl) as [_ H1].
    destruct (H1 [view in_B2 pA "A1" []] 3%nat eq_refl ltac:(show_frames)
                ltac:(cbn; lia)) as (_ & _ & Hnone).
    apply Hnone. cbn. all_missed.
Defined.

(** C4.  The failing input: the page does not know the object and the
    listing of its iframes fails with [io.EOF].  The search stops at that
    request, but [ensureParentPage] returns [nil], not the error, because
    it takes every [io.EOF] of [walk] for the signal that the node was
    found.  The same listing failing with another error is returned, and
    so is [io.EOF] itself when it comes from the first check. *)
Lemma ensureParentPage_swallows_EOF :
  let has := PageHasElement main_page "stale" in
  let list := PageElements main_page "iframe" in
  pageHasElement (closing true) [] main_page "stale" = Ok false /\
  pageElements (closing true) [has] main_page "iframe" = Fail io_EOF /\
  ensureParentPage (closing true) 3 stale_el 7 "stale" [] =
    Some (None, stale_el, [has; list]) /\
  ensureParentPage (closing true) 3 stale_el 7 "stale" [] <>
    Some (Some io_EOF, stale_el, [has; list]) /\
  ensureParentPage (closing false) 3 stale_el 7 "stale" [] =
    Some (Some (Failure "closed"), stale_el, [has; list]) /\
  ensureParentPage eof_at_check 3 stale_el 7 "stale" [] =
    Some (Some io_EOF, stale_el, [has]).
Proof.
  cbv zeta. split; [reflexivity|]. split; [reflexivity|].
  split; [reflexivity|]. split; [discriminate|].
  split; reflexivity.
Qed.

Lemma ensureParentPage_document_order_witness :
  let pB2 :=
    frame_page (frame_page (frame_page main_page "B") "B1") "B2" in
  exists tr',
    ensureParentPage nested 4 stale_el 7 "stale" []
      = Some (None, rebind stale_el pB2 "node-in-B2", tr') /\
    FrameID pB2 = "B2" /\
    visited tr' = ["A"; "A1"; "B"; "B1"; "B2"].
Proof.
  intros pB2.
  destruct (ensureParentPage_document_order nested 7 stale_el "stale" []
              nested_views (removelast (document_order nested_views)) []
              (view in_B2 (frame_page (frame_page main_page "B") "B1") "B2" [])
              pB2 "node-in-B2" 4%nat)
    as [(tr' & H1 & H2 & H3) _];
    [reflexivity | reflexivity | show_frames | cbn; lia | reflexivity
    | cbn; all_missed | reflexivity |].
  exists tr'. split; [exact H1|]. split; [exact H2 | exact H3].
Defined.

(** C8 as stated fails: B is a sibling of A, A1 is nested in A, and A1 is
    visited before B. *)
Lemma siblings_not_before_nested :
  let pB2 :=
    frame_page (frame_page (frame_page main_page "B") "B1") "B2" in
  exists tr',
    ensureParentPage nested 4 stale_el 7 "stale" []
      = Some (None, rebind stale_el pB2 "node-in-B2", tr') /\
    visited tr' = ["A"; "A1"; "B"; "B1"; "B2"] /\
    ~ siblings_before_nested nested_views (visited tr').
Proof.
  cbv zeta. eexists. split; [reflexivity|]. split; [reflexivity|].
  intros H.
  specialize (H (view in_B2 main_page "A"
                   [view in_B2 (frame_page main_page "A") "A1" []])
                (view in_B2 main_page "B"
                   [view in_B2 (frame_page main_page "B") "B1"
                      [view in_B2
                         (frame_page (frame_page main_page "B") "B1")
                         "B2" []]])
                (view in_B2 (frame_page main_page "A") "A1" [])).
  assert (E : precedes "B" "A1" ["A"; "A1"; "B"; "B1"; "B2"] = true).
  { apply H.
    - left. reflexivity.
    - right. left. reflexivity.
    - left. reflexivity.
    - right. left. reflexivity. }
  discriminate E.
Qed.

End ElementSpec.

(** * Further properties

    ** The mouse *)

Module MouseExtra.
Import Int64 Int64Facts Mouse MouseShortcuts MouseModel MouseSpec ExtraModel.

Lemma partial_stride_between (a b n k : Z) :
  in_range a -> in_range b -> in_range (b - a) -> 1 <= n -> 0 <= k <= n ->
  between a b (wrap (a + k * quo (sub b a) n)).
Proof.
  intros Ha Hb Hd Hn Hk.
  assert (Ed : sub b a = b - a) by (unfold sub; now apply wrap_id).
  rewrite quo_in_range by (unfold sub; auto using wrap_in_range).
  rewrite Ed. set (d := b - a) in *.
  pose proof (Z.quot_rem' d n) as E.
  destruct (quot_rem_toward d n Hn) as (_ & Hpos & Hneg).
  assert (Hbt : Z.min a b <= a + k * Z.quot d n <= Z.max a b).
  { destruct (Z.le_ge_cases 0 d) as [H0|H0].
    - specialize (Hpos H0).
      assert (0 <= Z.quot d n) by (apply Z.quot_pos; lia).
      assert (k * Z.quot d n <= n * Z.quot d n) by nia.
      unfold d in *. lia.
    - specialize (Hneg H0).
      assert (Z.quot d n <= 0).
      { pose proof (Z.quot_pos (- d) n ltac:(lia) ltac:(lia)) as Hq.
        rewrite Z.quot_opp_l in Hq by lia. lia. }
      assert (n * Z.quot d n <= k * Z.quot d n) by nia.
      unfold d in *. lia. }
  unfold between. rewrite wrap_id; [exact Hbt|].
  unfold in_range in *. lia.
Qed.

Lemma short_stride_is_zero (a b n : Z) :
  1 <= n -> Z.abs (sub b a) < n -> quo (sub b a) n = 0.
Proof.
  intros Hn Hs.
  rewrite quo_in_range by (unfold sub; auto using wrap_in_range).
  destruct (Z.le_ge_cases 0 (sub b a)) as [H0|H0].
  - apply Z.quot_small. lia.
  - assert (E : Z.quot (- sub b a) n = 0) by (apply Z.quot_small; lia).
    rewrite Z.quot_opp_l in E by lia. lia.
Qed.

Lemma released_app button bs cs :
  released button (bs ++ cs) = released button bs ++ released button cs.
Proof.
  induction bs as [|b bs IH]; [reflexivity|]. cbn [app released].
  destruct (String.eqb b button); [exact IH|]. cbn [app]. now rewrite IH.
Qed.

Lemma released_comm a b bs :
  released a (released b bs) = released b (released a bs).
Proof.
  induction bs as [|c bs IH]; [reflexivity|]. cbn [released].
  destruct (String.eqb c b) eqn:Eb; destruct (String.eqb c a) eqn:Ea;
    cbn [released]; rewrite ?Eb, ?Ea, IH; reflexivity.
Qed.

Lemma set_buttons_same m : set_buttons m (buttons m) = m.
Proof. now destruct m. Qed.

Section Properties.

Variable error : Type.
Variable Call : Trace -> string -> Object -> option error.
Variable EncodeMouseButton : list string -> string * Z.

Abbreviation MoveE := (Mouse.MoveE error Call EncodeMouseButton).
Abbreviation DownE := (Mouse.DownE error Call EncodeMouseButton).
Abbreviation UpE := (Mouse.UpE error Call EncodeMouseButton).
Abbreviation ClickE := (Mouse.ClickE error Call EncodeMouseButton).
Abbreviation Move := (MouseShortcuts.Move error Call EncodeMouseButton).

(** Whatever happens, [MoveE] ends at one of its committed steps. *)
Lemma MoveE_ends_at_a_step m x' y' steps tr :
  exists k : nat,
    (k <= Z.to_nat (Z.max 1 steps))%nat /\
    snd (fst (MoveE m x' y' steps tr)) =
      at_step (quo (sub x' (x m)) (Z.max 1 steps))
        (quo (sub y' (y m)) (Z.max 1 steps)) k m /\
    (List.length (snd (MoveE m x' y' steps tr))
       <= List.length tr + Z.to_nat (Z.max 1 steps))%nat /\
    (fst (fst (MoveE m x' y' steps tr)) = None ->
     k = Z.to_nat (Z.max 1 steps) /\
     List.length (snd (MoveE m x' y' steps tr))
       = (List.length tr + Z.to_nat (Z.max 1 steps))%nat).
Proof.
  rewrite MoveE_unfold.
  assert (Hlen : forall sx sy b bs k m0,
            List.length (move_requests sx sy b bs k m0) = k).
  { intros sx sy b bs k. induction k as [|k IH]; intros m0; [reflexivity|].
    cbn [move_requests List.length]. now rewrite IH. }
  destruct (move_loop_commits error Call
              (quo (sub x' (x m)) (Z.max 1 steps))
              (quo (sub y' (y m)) (Z.max 1 steps))
              (fst (EncodeMouseButton (buttons m)))
              (snd (EncodeMouseButton (buttons m)))
              (Z.to_nat (Z.max 1 steps)) m tr)
    as (k & Hk & _ & [[Ek E]|(err & Hlt & _ & E)]); rewrite E; exists k;
    cbn [fst snd]; rewrite length_app, Hlen.
  - split; [exact Hk|]. split; [reflexivity|]. split; [lia|].
    intros _. split; [exact Ek | lia].
  - split; [exact Hk|]. split; [reflexivity|]. split; [lia|].
    discriminate.
Qed.

(** X1.  If [target - current] fits in [int64] on an axis, the cursor
    [MoveE] leaves behind lies between the start and the target on that
    axis, whether the move completed or stopped at a rejected event: a
    move never overshoots and never backs away. *)
Theorem MoveE_never_overshoots (m : Mouse) (x' y' steps : Z) (tr : Trace) :
  in_range (x m) -> in_range (y m) -> in_range x' -> in_range y' ->
  let m' := snd (fst (MoveE m x' y' steps tr)) in
  (in_range (x' - x m) -> between (x m) x' (x m')) /\
  (in_range (y' - y m) -> between (y m) y' (y m')).
Proof.
  intros Hx Hy Hx' Hy' m'.
  destruct (MoveE_ends_at_a_step m x' y' steps tr) as (k & Hk & E & _).
  unfold m'. rewrite E.
  destruct (at_step_xy (quo (sub x' (x m)) (Z.max 1 steps))
              (quo (sub y' (y m)) (Z.max 1 steps)) k m Hx Hy) as [-> ->].
  split; intros Hd; apply partial_stride_between; auto; lia.
Qed.

(** X2.  When the computed difference on an axis is smaller in size than
    the number of steps, the stride on that axis is zero: the cursor does
    not move on that axis at all, although every event is sent. *)
Theorem MoveE_short_distance_stays (m : Mouse) (x' y' steps : Z) (tr : Trace) :
  in_range (x m) -> in_range (y m) ->
  let n := Z.max 1 steps in
  let out := MoveE m x' y' steps tr in
  (Z.abs (sub x' (x m)) < n -> x (snd (fst out)) = x m) /\
  (Z.abs (sub y' (y m)) < n -> y (snd (fst out)) = y m) /\
  (fst (fst out) = None ->
   List.length (snd out) = (List.length tr + Z.to_nat n)%nat).
Proof.
  intros Hx Hy n out.
  destruct (MoveE_ends_at_a_step m x' y' steps tr) as (k & Hk & E & _ & Hok).
  fold out in E, Hok. fold n in E, Hok, Hk.
  destruct (at_step_xy (quo (sub x' (x m)) n) (quo (sub y' (y m)) n) k m
              Hx Hy) as [Ex Ey].
  rewrite E. split; [|split].
  - intros Hs. rewrite Ex, short_stride_is_zero by (unfold n; lia || exact Hs).
    rewrite Z.mul_0_r, Z.add_0_r. now apply wrap_id.
  - intros Hs. rewrite Ey, short_stride_is_zero by (unfold n; lia || exact Hs).
    rewrite Z.mul_0_r, Z.add_0_r. now apply wrap_id.
  - intros Hnone. now apply Hok.
Qed.

(** X3.  [Move] sends exactly one [mouseMoved] event, at the target
    itself, for all [int64] coordinates (also when [target - current]
    overflows); the cursor is the target if the event is accepted and
    does not change if it is rejected. *)
Theorem Move_is_one_exact_event (m : Mouse) (x' y' : Z) (tr : Trace) :
  in_range x' -> in_range y' ->
  let p := mouseMoved m x' y' (fst (EncodeMouseButton (buttons m)))
             (snd (EncodeMouseButton (buttons m))) in
  Move m x' y' tr =
    match Call tr dispatch p with
    | Some err => (Some err, m, tr ++ [(dispatch, p)])
    | None => (None, set_xy m x' y', tr ++ [(dispatch, p)])
    end.
Proof.
  intros Hx' Hy' p. unfold MouseShortcuts.Move. rewrite MoveE_unfold.
  change (Z.to_nat (Z.max 1 0)) with 1%nat. change (Z.max 1 0) with 1.
  cbn [Mouse.move_loop].
  assert (E : forall a b, in_range b -> add a (quo (sub b a) 1) = b).
  { intros a b Hb.
    rewrite quo_in_range by (unfold sub; auto using wrap_in_range || lia).
    rewrite Z.quot_1_r. now apply add_sub_cancel. }
  rewrite !E by assumption. fold p. reflexivity.
Qed.

(** X4.  No operation touches what it is not about: [MoveE] keeps the
    pressed sequence, [DownE], [UpE] and [ClickE] keep the cursor, and all
    keep the page, whatever the browser answers. *)
Theorem operations_keep_the_rest (m : Mouse) (tr : Trace) :
  (forall x' y' steps,
     let m' := snd (fst (MoveE m x' y' steps tr)) in
     buttons m' = buttons m /\ page m' = page m) /\
  (forall b clicks,
     let m' := snd (fst (DownE m b clicks tr)) in
     x m' = x m /\ y m' = y m /\ page m' = page m) /\
  (forall b clicks,
     let m' := snd (fst (UpE m b clicks tr)) in
     x m' = x m /\ y m' = y m /\ page m' = page m) /\
  (forall b,
     let m' := snd (fst (ClickE m b tr)) in
     x m' = x m /\ y m' = y m /\ page m' = page m).
Proof.
  split; [|split; [|split]].
  - intros x' y' steps m'.
    destruct (MoveE_ends_at_a_step m x' y' steps tr) as (k & _ & E & _).
    unfold m'. rewrite E. apply at_step_buttons.
  - intros b clicks m'. unfold m'. rewrite DownE_unfold. cbv zeta.
    now destruct (Call tr dispatch _).
  - intros b clicks m'. unfold m'. rewrite UpE_unfold. cbv zeta.
    now destruct (Call tr dispatch _).
  - intros b m'. unfold m', Mouse.ClickE. rewrite DownE_unfold. cbv zeta.
    destruct (Call tr dispatch _); [easy|].
    rewrite UpE_unfold. cbv zeta. now destruct (Call _ dispatch _).
Qed.

(** X5.  A press followed by a release of the same button leaves the
    pressed sequence without any occurrence of that button, so it also
    releases a button that was already held; if the button was not held,
    the mouse is exactly as before.  A successful [ClickE] is such a pair. *)
Theorem press_then_release (m : Mouse) (b : string) (tr : Trace) :
  (forall c1 c2 m1 tr1 m2 tr2,
     DownE m b c1 tr = (None, m1, tr1) ->
     UpE m1 b c2 tr1 = (None, m2, tr2) ->
     m2 = set_buttons m (released b (buttons m)) /\
     (~ In b (buttons m) -> m2 = m)) /\
  (forall m' tr',
     ClickE m b tr = (None, m', tr') ->
     let button := if String.eqb b EmptyString then "left"%string else b in
     m' = set_buttons m (released button (buttons m)) /\
     (~ In button (buttons m) -> m' = m)).
Proof.
  assert (Hpair : forall btn c1 c2 m1 tr1 m2 tr2,
            DownE m btn c1 tr = (None, m1, tr1) ->
            UpE m1 btn c2 tr1 = (None, m2, tr2) ->
            m2 = set_buttons m (released btn (buttons m)) /\
            (~ In btn (buttons m) -> m2 = m)).
  { intros btn c1 c2 m1 tr1 m2 tr2 H1 H2.
    apply DownE_success in H1. apply UpE_success in H2. subst m1 m2.
    unfold set_buttons. cbn [buttons page x y].
    rewrite released_app. cbn [released]. rewrite String.eqb_refl.
    rewrite app_nil_r. split; [reflexivity|].
    intros Hn. rewrite released_absent by exact Hn. now destruct m. }
  split; [apply Hpair|].
  intros m' tr' H button. unfold Mouse.ClickE in H.
  change Mouse.defaultMouseButton with "left"%string in H. fold button in H.
  destruct (DownE m button 1 tr) as [[[err|] m1] tr1] eqn:Hd; [discriminate|].
  exact (Hpair button 1 1 m1 tr1 m' tr' Hd H).
Qed.

(** X6.  The order of two releases does not matter for the mouse, and a
    press commutes with the release of a different button. *)
Theorem releases_commute (m : Mouse) (a b : string) :
  (forall c1 c2 c3 c4 tr ma tra mab trab tr' mb trb mba trba,
     UpE m a c1 tr = (None, ma, tra) ->
     UpE ma b c2 tra = (None, mab, trab) ->
     UpE m b c3 tr' = (None, mb, trb) ->
     UpE mb a c4 trb = (None, mba, trba) ->
     mab = mba) /\
  (a <> b ->
   forall c1 c2 c3 c4 tr ma tra mab trab tr' mb trb mba trba,
     DownE m a c1 tr = (None, ma, tra) ->
     UpE ma b c2 tra = (None, mab, trab) ->
     UpE m b c3 tr' = (None, mb, trb) ->
     DownE mb a c4 trb = (None, mba, trba) ->
     mab = mba).
Proof.
  split.
  - intros c1 c2 c3 c4 tr ma tra mab trab tr' mb trb mba trba H1 H2 H3 H4.
    apply UpE_success in H1, H2, H3, H4. subst.
    unfold set_buttons. cbn [buttons page x y]. now rewrite released_comm.
  - intros Hab c1 c2 c3 c4 tr ma tra mab trab tr' mb trb mba trba
      H1 H2 H3 H4.
    apply DownE_success in H1, H4. apply UpE_success in H2, H3. subst.
    unfold set_buttons. cbn [buttons page x y]. rewrite released_app.
    cbn [released]. destruct (String.eqb_spec a b) as [E|_]; [contradiction|].
    reflexivity.
Qed.

End Properties.

Lemma MoveE_never_overshoots_witness :
  let m' :=
    snd (fst (Mouse.MoveE string (reject_after 2) encode_none origin 10 (-7)
                3 [])) in
  x m' = 6 /\ y m' = -4 /\ between 0 10 (x m') /\ between 0 (-7) (y m').
Proof.
  intros m'. split; [reflexivity|]. split; [reflexivity|].
  destruct (MoveE_never_overshoots string (reject_after 2) encode_none origin
              10 (-7) 3 []) as [Hx Hy];
    [int64_range | int64_range | int64_range | int64_range |].
  split; [apply Hx | apply Hy]; int64_range.
Defined.

Lemma MoveE_short_distance_stays_witness :
  let out := Mouse.MoveE string (accept string) encode_none origin 3 40 10 [] in
  x (snd (fst out)) = 0 /\ y (snd (fst out)) = 40 /\
  List.length (snd out) = 10%nat.
Proof.
  intros out.
  destruct (MoveE_short_distance_stays string (accept string) encode_none
              origin 3 40 10 []) as (Hx & _ & Hlen);
    [int64_range | int64_range |].
  split; [apply Hx; reflexivity|]. split; [reflexivity|].
  apply Hlen. reflexivity.
Defined.

Lemma Move_is_one_exact_event_witness :
  let far :=
    {| page := {| Keyboard_modifiers := 0 |}; x := -2; y := 0;
       buttons := [] |} in
  MouseShortcuts.Move string (accept string) encode_none far max_int 5 [] =
    (None, set_xy far max_int 5,
     [(dispatch, mouseMoved far max_int 5 "none" 0)]).
Proof.
  intros far.
  apply (Move_is_one_exact_event string (accept string) encode_none far
           max_int 5 []); int64_range.
Defined.

Lemma press_then_release_witness :
  let held := set_buttons origin ["left"%string; "right"%string] in
  (exists m1 tr1 m2 tr2,
     Mouse.DownE string (accept string) encode_none held "left" 1 []
       = (None, m1, tr1) /\
     Mouse.UpE string (accept string) encode_none m1 "left" 1 tr1
       = (None, m2, tr2) /\
     buttons m1 = ["left"%string; "right"%string; "left"%string] /\
     m2 = set_buttons origin ["right"%string]) /\
  (exists m' tr',
     Mouse.ClickE string (accept string) encode_none origin EmptyString []
       = (None, m', tr') /\
     m' = origin).
Proof.
  intros held. split.
  - destruct (press_then_release string (accept string) encode_none held
                "left"%string []) as [H _].
    do 4 eexists. split; [reflexivity|]. split; [reflexivity|].
    split; [reflexivity|].
    apply (H 1 1 _ _ _ _ eq_refl eq_refl).
  - destruct (press_then_release string (accept string) encode_none origin
                EmptyString []) as [_ H].
    do 2 eexists. split; [reflexivity|].
    apply (H _ _ eq_refl). intros [].
Defined.

Lemma releases_commute_witness :
  let held := set_buttons origin ["left"%string; "right"%string] in
  let UpE := Mouse.UpE string (accept string) encode_none in
  let DownE := Mouse.DownE string (accept string) encode_none in
  snd (fst (UpE (snd (fst (UpE held "left"%string 1 []))) "right"%string 1 [])) =
    snd (fst (UpE (snd (fst (UpE held "right"%string 1 []))) "left"%string 1 [])) /\
  snd (fst (UpE (snd (fst (DownE held "back"%string 1 []))) "right"%string 1 [])) =
    snd (fst (DownE (snd (fst (UpE held "right"%string 1 []))) "back"%string 1 [])).
Proof.
  intros held UpE DownE. split.
  - destruct (releases_commute string (accept string) encode_none held
                "left"%string "right"%string) as [H _].
    eapply (H 1 1 1 1 [] _ _ _ _ [] _ _ _ _); reflexivity.
  - destruct (releases_commute string (accept string) encode_none held
                "back"%string "right"%string) as [_ H].
    eapply (H ltac:(discriminate) 1 1 1 1 [] _ _ _ _ [] _ _ _ _);
      reflexivity.
Defined.

End MouseExtra.

(** ** Elements *)

Module ElementExtra.
Import Int64 Element ElementModel ElementSpec ExtraModel.

Local Open Scope string_scope.
Local Open Scope list_scope.

Section Properties.

Context {L : Lib} (R : Remote L).

(** X7.  [Interactable] returns no error only when the shape is not empty
    and the element found at the centre of its first quad was reported as
    contained: then all four requests were made, and the callers' [shape[0]]
    is in range. *)
Theorem Interactable_nil_means_hit (el : Element) (tr : Trace)
    (shape : list (DOMQuad L)) (tr' : Trace) :
  Interactable R el tr = ((shape, None), tr') ->
  exists shape0 others scroll elAtPoint res,
    let tr1 := tr ++ [DOMGetContentQuads el] in
    let js := "{ x: window.scrollX, y: window.scrollY }" in
    let root := Root L (page el) in
    let tr2 := tr1 ++ [PageEval root js] in
    let px :=
      add (int64_of L (CenterX L shape0)) (Int L (Get L scroll "x")) in
    let py :=
      add (int64_of L (CenterY L shape0)) (Int L (Get L scroll "y")) in
    let tr3 := tr2 ++ [PageElementFromPoint (page el) px py] in
    let opts :=
      This (jsHelper L (js_ContainsElement L) [ObjectID elAtPoint])
        (ObjectID el) in
    shape = shape0 :: others /\
    getContentQuads R tr el = Ok shape /\
    pageEval R tr1 root js = Ok scroll /\
    pageElementFromPoint R tr2 (page el) px py = Ok elAtPoint /\
    pageEvalWithOptions R tr3 (page el) (ctx el) opts = Ok res /\
    Bool L res = true /\
    tr' = tr3 ++ [PageEvalWithOptions (page el) (ctx el) opts].
Proof.
  unfold Interactable, Shape. intros H.
  destruct (getContentQuads R tr el) as [[|shape0 others]|err] eqn:Hq;
    try discriminate.
  destruct (pageEval R _ _ _) as [scroll|err] eqn:Hs; try discriminate.
  destruct (pageElementFromPoint R _ _ _ _) as [elAtPoint|err] eqn:Hh;
    try discriminate.
  unfold ContainsElement in H. rewrite EvalWithOptions_unfold in H.
  destruct (pageEvalWithOptions R _ _ _ _) as [res|err] eqn:Hc;
    try discriminate.
  destruct (Bool L res) eqn:Hb; try discriminate.
  inversion H; subst shape tr'. clear H.
  exists shape0, others, scroll, elAtPoint, res. cbv zeta.
  repeat split; assumption.
Qed.

(** X8.  [Interactable] stops at the first request that fails and returns
    its error as it is: a failed shape request gives no shape; a failed
    scroll read is followed by no hit-test; a failed hit-test or a failed
    containment check is the last request made. *)
Theorem Interactable_fails_fast (el : Element) (tr : Trace) :
  let tr1 := tr ++ [DOMGetContentQuads el] in
  let js := "{ x: window.scrollX, y: window.scrollY }" in
  let root := Root L (page el) in
  let tr2 := tr1 ++ [PageEval root js] in
  (forall err,
     getContentQuads R tr el = Fail err ->
     Interactable R el tr = (([], Some err), tr1)) /\
  (forall shape0 others,
     getContentQuads R tr el = Ok (shape0 :: others) ->
     (forall err,
        pageEval R tr1 root js = Fail err ->
        Interactable R el tr = ((shape0 :: others, Some err), tr2)) /\
     (forall scroll,
        pageEval R tr1 root js = Ok scroll ->
        let px :=
          add (int64_of L (CenterX L shape0)) (Int L (Get L scroll "x")) in
        let py :=
          add (int64_of L (CenterY L shape0)) (Int L (Get L scroll "y")) in
        let tr3 := tr2 ++ [PageElementFromPoint (page el) px py] in
        (forall err,
           pageElementFromPoint R tr2 (page el) px py = Fail err ->
           Interactable R el tr = ((shape0 :: others, Some err), tr3)) /\
        (forall elAtPoint err,
           pageElementFromPoint R tr2 (page el) px py = Ok elAtPoint ->
           let opts :=
             This (jsHelper L (js_ContainsElement L) [ObjectID elAtPoint])
               (ObjectID el) in
           pageEvalWithOptions R tr3 (page el) (ctx el) opts = Fail err ->
           Interactable R el tr =
             ((shape0 :: others, Some err),
              tr3 ++ [PageEvalWithOptions (page el) (ctx el) opts])))).
Proof.
  intros tr1 js root tr2. unfold Interactable, Shape. split.
  - intros err H. now rewrite H.
  - intros shape0 others Hq. rewrite Hq. split.
    + intros err H. unfold tr2, tr1, root, js in *. now rewrite H.
    + intros scroll Hs. unfold tr2, tr1, root, js in *. rewrite Hs.
      cbv zeta. split.
      * intros err H. now rewrite H.
      * intros elAtPoint err Hh Hc. rewrite Hh.
        unfold ContainsElement. rewrite EvalWithOptions_unfold, Hc.
        reflexivity.
Qed.

Section Search.

Variable nodeID : proto.DOMNodeID.

Lemma range_keeps_or_relocates
    (wk : Page -> Element -> Trace -> option Walked) :
  (forall pg el tr r el' tr',
     wk pg el tr = Some (r, el', tr') ->
     el' = el \/ (r = Some io_EOF /\ relocated el el')) ->
  forall l el tr r el' tr',
    range R wk nodeID l el tr = Some (r, el', tr') ->
    el' = el \/ (r = Some io_EOF /\ relocated el el').
Proof.
  intros Hwk. induction l as [|f rest IH]; intros el tr r el' tr' H.
  - inversion H. now left.
  - cbn [range] in H. rewrite Frame_unfold in H.
    destruct (describeNode R tr f 1 false) as [node|err];
      [|inversion H; now left].
    destruct (pageResolveNode R _ _ nodeID) as [objID|err];
      [|inversion H; now left].
    cbv zeta in H. destruct (String.eqb_spec objID EmptyString) as [E|E];
      cbn [negb] in H.
    + destruct (wk _ el _) as [[[[err|] el0] tr0]|] eqn:Hw; try discriminate.
      * inversion H; subst. exact (Hwk _ _ _ _ _ _ Hw).
      * destruct (Hwk _ _ _ _ _ _ Hw) as [->|[Habs _]]; [|discriminate].
        exact (IH _ _ _ _ _ H).
    + inversion H; subst. right. split; [reflexivity|].
      exists f, node, objID. now split.
Qed.

Lemma walk_keeps_or_relocates fuel :
  forall pg el tr r el' tr',
    walk R fuel nodeID pg el tr = Some (r, el', tr') ->
    el' = el \/ (r = Some io_EOF /\ relocated el el').
Proof.
  induction fuel as [|fuel IH]; intros pg el tr r el' tr' H; [discriminate|].
  cbn [walk] in H.
  destruct (pageElements R tr pg "iframe") as [iframes|err];
    [|inversion H; now left].
  exact (range_keeps_or_relocates _ IH _ _ _ _ _ _ H).
Qed.

(** X9.  Whatever the browser answers, when [ensureParentPage] returns,
    the handle is either untouched or bound to the page of an iframe and a
    non-empty object id, and the latter only together with a [nil] result:
    an error never comes with a changed handle, and the scope of the
    handle never changes. *)
Theorem ensureParentPage_handle (fuel : nat) (el : Element)
    (objID : proto.RuntimeRemoteObjectID) (tr : Trace)
    (r : option error) (el' : Element) (tr' : Trace) :
  ensureParentPage R fuel el nodeID objID tr = Some (r, el', tr') ->
  ctx el' = ctx el /\
  (r <> None -> el' = el) /\
  (el' = el \/
   (r = None /\ relocated el el' /\
    ObjectID el' <> EmptyString /\ element (page el') <> None)).
Proof.
  intros H.
  assert (Hmain : el' = el \/ (r = None /\ relocated el el')).
  { unfold ensureParentPage in H.
    destruct (pageHasElement R tr (page el) objID) as [[|]|err];
      try (inversion H; now left).
    destruct (walk R fuel nodeID (page el) el _) as [[[[err|] el0] tr0]|]
      eqn:Hw; try discriminate.
    - destruct (walk_keeps_or_relocates _ _ _ _ _ _ _ Hw) as [->|[E Hrel]].
      + destruct (is_EOF err); inversion H; now left.
      + inversion E; subst err. cbn [is_EOF] in H. inversion H; subst.
        right. now split.
    - destruct (walk_keeps_or_relocates _ _ _ _ _ _ _ Hw) as [->|[E _]];
        [|discriminate].
      inversion H. now left. }
  destruct Hmain as [->|[-> Hrel]].
  - split; [reflexivity|]. split; [reflexivity|]. now left.
  - pose proof Hrel as (f & node & found & Hne & ->).
    split; [reflexivity|]. split; [intros Habs; now elim Habs|].
    right. split; [reflexivity|]. split; [exact Hrel|].
    split; [exact Hne | discriminate].
Qed.

Lemma visit_length v : (List.length (visit nodeID v) <= 3)%nat.
Proof.
  destruct v as [f [node|err] [found|err'] l inner]; cbn; try lia.
  destruct (negb (String.eqb found EmptyString)); cbn; lia.
Qed.

Lemma scan_length vs :
  forall el tr,
    (List.length (snd (scan nodeID el tr vs))
       <= List.length tr + 3 * List.length vs)%nat.
Proof.
  induction vs as [|v vs IH]; intros el tr; cbn [scan].
  - cbn. lia.
  - pose proof (visit_length v) as Hv.
    destruct (verdict v).
    + specialize (IH el (tr ++ visit nodeID v)).
      rewrite length_app in IH. cbn [List.length]. lia.
    + cbn [snd]. rewrite length_app. cbn [List.length]. lia.
    + cbn [snd]. rewrite length_app. cbn [List.length]. lia.
Qed.

(** X10.  On a finite tree of iframes, with fuel above its depth,
    [ensureParentPage] returns after at most two requests plus three for
    each iframe of the tree: one [Describe], one [resolveNode] and one
    listing per frame. *)
Theorem ensureParentPage_request_bound (fuel : nat) (el : Element)
    (objID : proto.RuntimeRemoteObjectID) (tr : Trace) (vs : list Iframe) :
  pageHasElement R tr (page el) objID = Ok false ->
  pageElements R (tr ++ [PageHasElement (page el) objID]) (page el) "iframe"
    = Ok (map iframe_el vs) ->
  all_show R nodeID vs ->
  (depths vs < fuel)%nat ->
  exists r el' tr',
    ensureParentPage R fuel el nodeID objID tr = Some (r, el', tr') /\
    (List.length tr' <= List.length tr + 2 + 3 * frame_count vs)%nat.
Proof.
  intros Hhas Hl Hs Hf.
  rewrite (ensureParentPage_scans R nodeID el objID tr vs fuel Hhas Hl Hs Hf).
  pose proof (scan_length (document_order vs) el
                ((tr ++ [PageHasElement (page el) objID]) ++
                   [PageElements (page el) "iframe"])) as Hlen.
  rewrite !length_app in Hlen. cbn [List.length] in Hlen.
  destruct (scan nodeID el _ (document_order vs)) as [[[err|] el0] tr0];
    cbn [settle snd] in *; [destruct (is_EOF err)|];
    do 3 eexists; (split; [reflexivity|]); unfold frame_count; lia.
Qed.

End Search.

Section Stable.

Variable el : Element.

Ltac loop_events :=
  repeat (constructor; [(now left) || (now right)|]); constructor.

Lemma stable_loop_events fuel :
  forall shape tr r tr',
    stable_loop R fuel el shape tr = Some (r, tr') ->
    exists body, tr' = tr ++ body /\ Forall (loop_event el) body.
Proof.
  induction fuel as [|fuel IH]; intros shape tr r tr' H; [discriminate|].
  cbn [stable_loop] in H. unfold Shape in H.
  destruct (selected R tr (ctx el)).
  - destruct (getContentQuads R _ el) as [current|err].
    + destruct (DeepEqual L shape current).
      * inversion H. exists [Select (ctx el); DOMGetContentQuads el].
        split; [now rewrite <- app_assoc|].
        loop_events.
      * apply IH in H. destruct H as (body & -> & Hb).
        exists ([Select (ctx el); DOMGetContentQuads el] ++ body).
        split; [now rewrite <- !app_assoc|].
        apply Forall_app. split; [|exact Hb].
        loop_events.
    + inversion H. exists [Select (ctx el); DOMGetContentQuads el].
      split; [now rewrite <- app_assoc|].
      loop_events.
  - inversion H. exists [Select (ctx el)]. split; [reflexivity|].
    loop_events.
Qed.

(** X11.  [WaitStable] creates a ticker at most once, and only after the
    visibility wait and a first sample succeeded.  With a positive
    interval, whenever it returns after that, stopping the ticker is its
    last event, and in between it only waits on the [select] and samples
    the element; with an interval that is not positive it panics on
    creating the ticker and stops nothing. *)
Theorem WaitStable_stops_its_ticker (fuel : nat) (interval : Z) (tr : Trace)
    (c : Completion) (tr' : Trace) :
  WaitStable R fuel el interval tr = Some (c, tr') ->
  exists v tr1,
    let sample := DOMGetContentQuads el in
    WaitVisible R fuel el tr = Some (v, tr1) /\
    ((v <> None /\ c = Returned v /\ tr' = tr1) \/
     (v = None /\
      exists err,
        getContentQuads R tr1 el = Fail err /\
        c = Returned (Some err) /\ tr' = tr1 ++ [sample]) \/
     (v = None /\ interval <= 0 /\ c = Panicked /\
      tr' = tr1 ++ [sample; NewTicker interval]) \/
     (v = None /\ 0 < interval /\
      exists r body,
        c = Returned r /\ Forall (loop_event el) body /\
        tr' = tr1 ++ [sample; NewTicker interval] ++ body ++ [TickerStop])).
Proof.
  unfold WaitStable. intros H.
  destruct (WaitVisible R fuel el tr) as [[[err|] tr1]|]; try discriminate;
    eexists; exists tr1; cbv zeta; (split; [reflexivity|]).
  - inversion H. left. now repeat split.
  - right. unfold Shape in H.
    destruct (getContentQuads R tr1 el) as [shape|err] eqn:Hq.
    + right. destruct (Z.leb_spec interval 0) as [Hle|Hpos].
      * inversion H. left. rewrite <- app_assoc. now repeat split.
      * right.
        destruct (stable_loop R fuel el shape _) as [[r tr3]|] eqn:Hloop;
          [|discriminate].
        inversion H; subst c tr'.
        apply stable_loop_events in Hloop. destruct Hloop as (body & -> & Hb).
        split; [reflexivity|]. split; [exact Hpos|].
        exists r, body. split; [reflexivity|]. split; [exact Hb|].
        now rewrite <- !app_assoc.
    + inversion H. left. split; [reflexivity|]. exists err. now repeat split.
Qed.

End Stable.

End Properties.

Lemma Interactable_nil_means_hit_witness :
  exists shape0 others,
    ([square] : list (DOMQuad lib0)) = shape0 :: others /\
    Interactable (still [square] button_el (Ok (JBool true))) button_el []
      = (([square], None),
         [DOMGetContentQuads button_el;
          PageEval main_page "{ x: window.scrollX, y: window.scrollY }";
          PageElementFromPoint main_page 8 50;
          PageEvalWithOptions main_page O
            {| JS := "containsElement"; JSArgs := ["button"];
               ThisID := "button"; byUser := false |}]).
Proof.
  destruct (Interactable_nil_means_hit
              (still [square] button_el (Ok (JBool true))) button_el []
              [square] _ eq_refl)
    as (shape0 & others & scroll & elAt & res & E & _).
  exists shape0, others. split; [exact E | reflexivity].
Defined.

Lemma Interactable_fails_fast_witness :
  Interactable (still [square] modal_el (Fail (Failure "detached")))
    button_el [] =
    (([square], Some (Failure "detached")),
     [DOMGetContentQuads button_el;
      PageEval main_page "{ x: window.scrollX, y: window.scrollY }";
      PageElementFromPoint main_page 8 50;
      PageEvalWithOptions main_page O
        {| JS := "containsElement"; JSArgs := ["modal"];
           ThisID := "button"; byUser := false |}]).
Proof.
  destruct (Interactable_fails_fast
              (still [square] modal_el (Fail (Failure "detached")))
              button_el []) as [_ H].
  destruct (H square [] eq_refl) as [_ H1].
  destruct (H1 (JPoint 3 40) eq_refl) as [_ H2].
  apply (H2 modal_el (Failure "detached")); reflexivity.
Defined.

Lemma ensureParentPage_handle_witness :
  let pB2 :=
    frame_page (frame_page (frame_page main_page "B") "B1") "B2" in
  let el' := rebind stale_el pB2 "node-in-B2" in
  ctx el' = ctx stale_el /\
  relocated stale_el el' /\
  ObjectID el' <> EmptyString /\
  element (page el') <> None.
Proof.
  intros pB2 el'.
  destruct (ensureParentPage_handle nested 7 4 stale_el "stale" [] None
              el' _ eq_refl)
    as (Hctx & _ & [Habs|(_ & Hrel & Hid & Hpage)]); [discriminate Habs|].
  repeat split; assumption.
Defined.

Lemma ensureParentPage_request_bound_witness :
  exists r el' tr',
    ensureParentPage nested 4 stale_el 7 "stale" [] = Some (r, el', tr') /\
    (List.length tr' <= 17)%nat.
Proof.
  destruct (ensureParentPage_request_bound nested 7 4 stale_el "stale" []
              nested_views eq_refl eq_refl ltac:(show_frames)
              ltac:(cbn; lia))
    as (r & el' & tr' & H & Hlen).
  exists r, el', tr'. split; [exact H | exact Hlen].
Defined.

Lemma WaitStable_stops_its_ticker_witness :
  exists body,
    Forall (loop_event button_el) body /\
    WaitStable (animated 6 100 (Ok (JBool true))) 5 button_el 100 [] =
      Some (Returned None,
            [PageEvalWithOptions main_page O
               {| JS := "visible"; JSArgs := []; ThisID := "button";
                  byUser := false |}]
            ++ [DOMGetContentQuads button_el; NewTicker 100] ++ body
            ++ [TickerStop]).
Proof.
  pose (visible :=
          PageEvalWithOptions main_page O
            {| JS := "visible"; JSArgs := []; ThisID := "button";
               byUser := false |}).
  pose (sample := DOMGetContentQuads button_el).
  assert (E : WaitStable (animated 6 100 (Ok (JBool true))) 5 button_el 100 []
              = Some (Returned None,
                      [visible; sample; NewTicker 100; Select O; sample;
                       Select O; sample; Select O; sample; TickerStop]))
    by reflexivity.
  destruct (WaitStable_stops_its_ticker
              (animated 6 100 (Ok (JBool true))) button_el 5 100 [] _ _ E)
    as (v & tr1 & Hv & [(Hn & _)|[(_ & err & Habs & _)|[(_ & Hle & _)|
         (_ & _ & r & body & Hr & Hb & Htr)]]]).
  - inversion Hv; subst. now elim Hn.
  - inversion Hv; subst. discriminate Habs.
  - lia.
  - inversion Hv; subst tr1. exists body. split; [exact Hb|].
    rewrite E, Htr. reflexivity.
Defined.

End ElementExtra.
